(** * Clifford utilities for randomized benchmarking

    A shallow embedding of
    [qiskit_experiments/library/randomized_benchmarking/clifford_utils.py]
    (class [CliffordUtils]) and the properties of its mixed-radix unranking,
    its 1- and 2-qubit circuit synthesis, its samplers and its target
    bit-string extraction.

    Python integers are [Z]; [%] and [//] on integers are the floored
    [Z.modulo] and [Z.div].  A Python exception is a value of [exn] carried by
    [result].  The random generator, the floating point numbers and qiskit's
    Clifford objects are external to the file under study: they are the
    fields of the classes [Numerics] and [Qiskit] below, and every theorem
    holds for all their implementations. *)

From Stdlib Require Import String Ascii.
From Stdlib Require Import ZArith List Lia Bool Sorted.
Import ListNotations.
Local Open Scope Z_scope.

Set Implicit Arguments.

(** * Part I: the program *)

(** ** Python exceptions *)

Inductive exn : Type :=
| ZeroDivisionError
| TypeError
| ValueError
| IndexError
| UnboundLocalError
| CircuitError
| OutOfFuel.  (* not a Python exception: the bound of a modelled while loop *)

Inductive result (A : Type) : Type :=
| Ok (a : A)
| Raise (e : exn).

Arguments Ok {A} a.
Arguments Raise {A} e.

Definition bind {A B} (c : result A) (k : A -> result B) : result B :=
  match c with
  | Ok a => k a
  | Raise e => Raise e
  end.

Declare Scope result_scope.
Delimit Scope result_scope with result.
Notation "x <- c ;; k" := (bind c (fun x => k))
  (at level 61, c at next level, right associativity) : result_scope.
Notation "' pat <- c ;; k" := (bind c (fun x => match x with pat => k end))
  (at level 61, pat pattern, c at next level, right associativity) : result_scope.
Local Open Scope result_scope.

(** ** Circuits

    A [QuantumCircuit] is a register size and the list of instructions
    appended so far; an instruction is a gate and the qubit indices it acts
    on.  Only the methods the file calls are modelled. *)

Inductive Gate : Type :=
| HGate | SGate | SdgGate | SXdgGate
| XGate | YGate | ZGate
| CXGate
| VGate | WGate.

Record Instruction : Type := instr {
  operation : Gate;
  qargs : list Z
}.

Record QuantumCircuit : Type := circuit {
  num_qubits : nat;
  data : list Instruction
}.

(** [VGate._define] and [WGate._define]: V is Sdg then H, W is H then S. *)
Definition definition (g : Gate) : option (list Instruction) :=
  match g with
  | VGate => Some [instr SdgGate [0]; instr HGate [0]]
  | WGate => Some [instr HGate [0]; instr SGate [0]]
  | _ => None
  end.

Module QC.

(** [QuantumCircuit(QuantumRegister(n))] *)
Definition new (n : nat) : QuantumCircuit := circuit n [].

Definition _append (qc : QuantumCircuit) (g : Gate) (qs : list Z) : QuantumCircuit :=
  circuit (num_qubits qc) (data qc ++ [instr g qs]).

Definition h (qc : QuantumCircuit) (q : Z) := _append qc HGate [q].
Definition s (qc : QuantumCircuit) (q : Z) := _append qc SGate [q].
Definition sxdg (qc : QuantumCircuit) (q : Z) := _append qc SXdgGate [q].
Definition x (qc : QuantumCircuit) (q : Z) := _append qc XGate [q].
Definition y (qc : QuantumCircuit) (q : Z) := _append qc YGate [q].
Definition z (qc : QuantumCircuit) (q : Z) := _append qc ZGate [q].

(** [qc.cx(c, t)]: qiskit refuses an instruction whose qubit arguments
    repeat ("duplicate qubit arguments"). *)
Definition cx (qc : QuantumCircuit) (c t : Z) : result QuantumCircuit :=
  if c =? t then Raise CircuitError else Ok (_append qc CXGate [c; t]).

End QC.

(** ** Class constants *)

Definition NUM_CLIFFORD_1_QUBIT : Z := 24.
Definition NUM_CLIFFORD_2_QUBIT : Z := 11520.
Definition CLIFFORD_1_QUBIT_SIG : list Z := [2; 3; 4].
Definition CLIFFORD_2_QUBIT_SIGS : list (list Z) :=
  [ [2; 2; 3; 3; 4; 4];
    [2; 2; 3; 3; 3; 3; 4; 4];
    [2; 2; 3; 3; 3; 3; 4; 4];
    [2; 2; 3; 3; 4; 4] ].

(** ** Mixed-radix unranking *)

(** The body of [for k in sig: res.append(num % k); num //= k], on the loop
    state [(res, num)].  [num % 0] raises [ZeroDivisionError]. *)
Fixpoint unpack_loop (sig : list Z) (res : list Z) (num : Z) : result (list Z) :=
  match sig with
  | [] => Ok res
  | k :: sig' =>
      if k =? 0 then Raise ZeroDivisionError
      else unpack_loop sig' (res ++ [num mod k]) (num / k)
  end.

Definition _unpack_num (num : Z) (sig : list Z) : result (list Z) :=
  unpack_loop sig [] num.

(** [sig_size = 1; for k in sig: sig_size *= k] *)
Definition sig_size (sig : list Z) : Z := fold_left Z.mul sig 1.

(** The loop of [_unpack_num_multi_sigs] over [enumerate(sigs)], started at
    counter [i].  Falling off the loop returns Python's [None]. *)
Fixpoint multi_sigs_loop (i : Z) (sigs : list (list Z)) (num : Z)
  : result (option (list Z)) :=
  match sigs with
  | [] => Ok None
  | sig :: sigs' =>
      if num <? sig_size sig
      then (r <- _unpack_num num sig ;; Ok (Some (i :: r)))
      else multi_sigs_loop (i + 1) sigs' (num - sig_size sig)
  end.

Definition _unpack_num_multi_sigs (num : Z) (sigs : list (list Z))
  : result (option (list Z)) :=
  multi_sigs_loop 0 sigs num.

(** ** 1-qubit synthesis *)

(** The six conditional appends shared by [clifford_1_qubit_circuit] and by
    the last loop of [random_edgegrab_clifford_circuits] (where the source
    repeats them, "copied from clifford_1_qubit_circuit()"), on qubit [q]. *)
Definition append_1_qubit_gates (qc : QuantumCircuit) (q i j p : Z) : QuantumCircuit :=
  let qc := if i =? 1 then QC.h qc q else qc in
  let qc := if j =? 1 then QC._append qc SXdgGate [q] else qc in
  let qc := if j =? 2 then QC._append qc SGate [q] else qc in
  let qc := if p =? 1 then QC.x qc q else qc in
  let qc := if p =? 2 then QC.y qc q else qc in
  let qc := if p =? 3 then QC.z qc q else qc in
  qc.

(** [(i, j, p) = ...]: unpacking a list that has not three items raises
    [ValueError]. *)
Definition unpack_ijp (ds : list Z) : result (Z * Z * Z) :=
  match ds with
  | [i; j; p] => Ok (i, j, p)
  | _ => Raise ValueError
  end.

(** The function is memoized by [lru_cache(maxsize=24)]; memoization keeps
    the values it returns. *)
Definition clifford_1_qubit_circuit (num : Z) : result QuantumCircuit :=
  ds <- _unpack_num num CLIFFORD_1_QUBIT_SIG ;;
  '(i, j, p) <- unpack_ijp ds ;;
  Ok (append_1_qubit_gates (QC.new 1) 0 i j p).

(** ** 2-qubit synthesis *)

(** The locals bound by the tuple assignment of [clifford_2_qubit_circuit];
    [k0] and [k1] stay unbound for the forms 0 and 3. *)
Record locals_2q : Type := mk_locals_2q {
  form : Z;
  i0 : Z; i1 : Z;
  j0 : Z; j1 : Z;
  k0 : option Z; k1 : option Z;
  p0 : Z; p1 : Z
}.

(** Reading a local variable: an unbound one raises [UnboundLocalError]. *)
Definition read_local (v : option Z) : result Z :=
  match v with
  | Some n => Ok n
  | None => Raise UnboundLocalError
  end.

(** [vals[0]]: [None] is not subscriptable. *)
Definition subscript_0 (vals : option (list Z)) : result Z :=
  match vals with
  | None => Raise TypeError
  | Some [] => Raise IndexError
  | Some (v0 :: _) => Ok v0
  end.

Definition unpack_vals (vals : option (list Z)) : result locals_2q :=
  v0 <- subscript_0 vals ;;
  if (v0 =? 0) || (v0 =? 3) then
    match vals with
    | Some [form; i0; i1; j0; j1; p0; p1] =>
        Ok (mk_locals_2q form i0 i1 j0 j1 None None p0 p1)
    | _ => Raise ValueError
    end
  else
    match vals with
    | Some [form; i0; i1; j0; j1; k0; k1; p0; p1] =>
        Ok (mk_locals_2q form i0 i1 j0 j1 (Some k0) (Some k1) p0 p1)
    | _ => Raise ValueError
    end.

(** [form in (a, b, ...)] *)
Definition in_tuple (v : Z) (t : list Z) : bool := existsb (Z.eqb v) t.

(** The correction block guarded by [form in (1, 2)]. *)
Definition append_corrections (qc : QuantumCircuit) (l : locals_2q)
  : result QuantumCircuit :=
  k0 <- read_local (k0 l) ;;
  let qc := if k0 =? 1 then QC._append qc VGate [0] else qc in
  let qc := if k0 =? 2 then QC._append qc WGate [0] else qc in
  k1 <- read_local (k1 l) ;;
  let qc := if k1 =? 1 then QC._append qc VGate [1] else qc in
  let qc := if k1 =? 2
            then QC._append (QC._append qc VGate [1]) VGate [1] else qc in
  Ok qc.

(** The function is memoized by [lru_cache(maxsize=11520)]. *)
Definition clifford_2_qubit_circuit (num : Z) : result QuantumCircuit :=
  vals <- _unpack_num_multi_sigs num CLIFFORD_2_QUBIT_SIGS ;;
  let qc := QC.new 2 in
  l <- unpack_vals vals ;;
  let qc := if i0 l =? 1 then QC.h qc 0 else qc in
  let qc := if i1 l =? 1 then QC.h qc 1 else qc in
  let qc := if j0 l =? 1 then QC.sxdg qc 0 else qc in
  let qc := if j0 l =? 2 then QC.s qc 0 else qc in
  let qc := if j1 l =? 1 then QC.sxdg qc 1 else qc in
  let qc := if j1 l =? 2 then QC.s qc 1 else qc in
  qc <- (if in_tuple (form l) [1; 2; 3] then QC.cx qc 0 1 else Ok qc) ;;
  qc <- (if in_tuple (form l) [2; 3] then QC.cx qc 1 0 else Ok qc) ;;
  qc <- (if form l =? 3 then QC.cx qc 0 1 else Ok qc) ;;
  qc <- (if in_tuple (form l) [1; 2] then append_corrections qc l else Ok qc) ;;
  let qc := if p0 l =? 1 then QC.x qc 0 else qc in
  let qc := if p0 l =? 2 then QC.y qc 0 else qc in
  let qc := if p0 l =? 3 then QC.z qc 0 else qc in
  let qc := if p1 l =? 1 then QC.x qc 1 else qc in
  let qc := if p1 l =? 2 then QC.y qc 1 else qc in
  let qc := if p1 l =? 3 then QC.z qc 1 else qc in
  Ok qc.

(** ** External collaborators *)

(** numpy's random generator and Python's floating point numbers.
    [integers high g] is [rng.integers(high)], [integers_size high n g] is
    [rng.integers(high, size=n)] and [random g] is [rng.random()]; each
    returns the generator after the draw.  [default_rng None] is
    [default_rng()] and [default_rng (Some seed)] is [default_rng(seed)]. *)
Class Numerics : Type := {
  Generator : Type;
  float : Type;
  default_rng : option Z -> Generator;
  integers : Z -> Generator -> Z * Generator;
  integers_size : Z -> nat -> Generator -> list Z * Generator;
  random : Generator -> float * Generator;
  float_of_int : Z -> float;
  float_mul : float -> float -> float;
  float_div : float -> float -> float;
  float_ltb : float -> float -> bool
}.

(** The [rng] argument of the samplers: [None], an [int] seed or a
    [Generator]. *)
Inductive rng_arg `{Numerics} : Type :=
| RngNone
| RngSeed (seed : Z)
| RngGenerator (g : Generator).

(** qiskit's [Clifford] class: [Clifford_of c] is [Clifford(c)],
    [table_phase] is [.table.phase], [random_clifford n rng] is
    [random_clifford(n, seed=rng)] with the [rng] argument as the call leaves
    it (a [Generator] is advanced in place). *)
Class Qiskit `{Numerics} : Type := {
  Clifford : Type;
  Clifford_of : QuantumCircuit -> Clifford;
  to_circuit : Clifford -> QuantumCircuit;
  table_phase : Clifford -> list bool;
  random_clifford : Z -> rng_arg -> Clifford * rng_arg
}.

(** What numpy documents of [integers]: the draws lie in [[0, high)], and a
    draw of [size=n] has [n] items. *)
Definition integers_in_range `{Numerics} : Prop :=
  forall high g, 0 < high -> 0 <= fst (integers high g) < high.

Definition integers_size_in_range `{Numerics} : Prop :=
  forall high n g, 0 < high ->
    length (fst (integers_size high n g)) = n /\
    Forall (fun i => 0 <= i < high) (fst (integers_size high n g)).

(** A Python number that is an [int] or a [float]: [two_qubit_prob] starts
    as the integer [0] and becomes a float by the division. *)
Inductive pynum `{Numerics} : Type :=
| PyInt (n : Z)
| PyFloat (f : float).

(** What [random_cliffords] returns: a list, or a single [Clifford]. *)
Inductive cliffords `{Qiskit} : Type :=
| OneClifford (c : Clifford)
| ListOfCliffords (l : list Clifford).

(** ** List helpers *)

(** [for x in l: ...] with a body that may raise, collecting the results. *)
Fixpoint map_result {A B} (f : A -> result B) (l : list A) : result (list B) :=
  match l with
  | [] => Ok []
  | a :: l' => b <- f a ;; bs <- map_result f l' ;; Ok (b :: bs)
  end.

(** [l.pop(i)]: the item and the list without it.  A negative index counts
    from the end; an index out of range raises [IndexError]. *)
Definition pop {A} (l : list A) (i : Z) : result (A * list A) :=
  let n := Z.of_nat (length l) in
  let j := if i <? 0 then i + n else i in
  if (0 <=? j) && (j <? n) then
    match nth_error l (Z.to_nat j) with
    | Some a => Ok (a, firstn (Z.to_nat j) l ++ skipn (S (Z.to_nat j)) l)
    | None => Raise IndexError
    end
  else Raise IndexError.

(** [np.arange(n)] *)
Definition arange (n : nat) : list Z := map Z.of_nat (seq 0 n).

(** [np.unique]: the sorted distinct values. *)
Fixpoint insert_unique (v : Z) (l : list Z) : list Z :=
  match l with
  | [] => [v]
  | w :: l' =>
      if v <? w then v :: l
      else if v =? w then l
      else w :: insert_unique v l'
  end.

Definition unique (l : list Z) : list Z := fold_right insert_unique [] l.

(** [np.setdiff1d(ar1, ar2)]: the sorted distinct values of [ar1] that are
    not in [ar2]. *)
Definition setdiff1d (ar1 ar2 : list Z) : list Z :=
  let ar1 := unique ar1 in
  let ar2 := unique ar2 in
  filter (fun v => negb (existsb (Z.eqb v) ar2)) ar1.

(** [np.where(q == np.asarray(qubits))[0][0]]: the first position of [q] in
    [qubits]; indexing the empty array of positions raises [IndexError]. *)
Fixpoint where_first (q : Z) (qubits : list Z) (pos : Z) : result Z :=
  match qubits with
  | [] => Raise IndexError
  | q' :: rest => if q =? q' then Ok pos else where_first q rest (pos + 1)
  end.

(** ** Edges *)

(** An edge of the coupling map is a two-item list [[a, b]]. *)
Definition edge : Type := (Z * Z)%type.

(** [q not in edge] *)
Definition not_in (q : Z) (e : edge) : bool :=
  negb ((q =? fst e) || (q =? snd e)).

Definition logical_edge (qubits : list Z) (e : edge) : result edge :=
  a <- where_first (fst e) qubits 0 ;;
  b <- where_first (snd e) qubits 0 ;;
  Ok (a, b).

Definition no_connectivity_warning : string :=
  "Device has no connectivity. All cliffords will be single-qubit Cliffords".

Definition density_warning : string :=
  "Mean number of two-qubit gates is higher than number of selected edges for CNOTs. Actual density of two-qubit gates will likely be lower than input density".

(** ** The samplers and the extractor *)

Section CliffordUtils.

Context {N : Numerics} {Q : Qiskit}.

(** [if rng is None: rng = default_rng()] and
    [if isinstance(rng, int): rng = default_rng(rng)] *)
Definition resolve_rng (rng : rng_arg) : Generator :=
  match rng with
  | RngNone => default_rng None
  | RngSeed seed => default_rng (Some seed)
  | RngGenerator g => g
  end.

(** [Clifford(self.clifford_1_qubit_circuit(num), validate=False)] *)
Definition clifford_1_qubit (num : Z) : result Clifford :=
  c <- clifford_1_qubit_circuit num ;; Ok (Clifford_of c).

Definition clifford_2_qubit (num : Z) : result Clifford :=
  c <- clifford_2_qubit_circuit num ;; Ok (Clifford_of c).

(** [size] is a count of samples, a natural number.  Above two qubits the
    source returns the value of one call of [random_clifford]. *)
Definition random_cliffords (num_qubits : Z) (size : nat) (rng : rng_arg)
  : result cliffords :=
  if 2 <? num_qubits then
    Ok (OneClifford (fst (random_clifford num_qubits rng)))
  else
    let rng := resolve_rng rng in
    if num_qubits =? 1 then
      let samples := fst (integers_size 24 size rng) in
      l <- map_result (fun i => c <- clifford_1_qubit_circuit i ;; Ok (Clifford_of c))
                      samples ;;
      Ok (ListOfCliffords l)
    else
      let samples := fst (integers_size 11520 size rng) in
      l <- map_result (fun i => c <- clifford_2_qubit_circuit i ;; Ok (Clifford_of c))
                      samples ;;
      Ok (ListOfCliffords l).

(** [[random_clifford(num_qubits, seed=rng).to_circuit() for _ in range(size)]] *)
Fixpoint random_clifford_loop (num_qubits : Z) (size : nat) (rng : rng_arg)
  : list QuantumCircuit :=
  match size with
  | O => []
  | S size' =>
      let (c, rng') := random_clifford num_qubits rng in
      to_circuit c :: random_clifford_loop num_qubits size' rng'
  end.

Definition random_clifford_circuits (num_qubits : Z) (size : nat) (rng : rng_arg)
  : result (list QuantumCircuit) :=
  if 2 <? num_qubits then
    Ok (random_clifford_loop num_qubits size rng)
  else
    let rng := resolve_rng rng in
    if num_qubits =? 1 then
      let samples := fst (integers_size 24 size rng) in
      map_result clifford_1_qubit_circuit samples
    else
      let samples := fst (integers_size 11520 size rng) in
      map_result clifford_2_qubit_circuit samples.

(** *** Edge grab *)

(** The [while all_edges:] loop on the state
    [(all_edges, selected_edges, rng)].  Every turn pops an edge, so the
    loop makes at most [length all_edges] turns: [fuel] bounds them. *)
Fixpoint grab_edges (fuel : nat) (all_edges selected_edges : list edge)
         (rng : Generator) : result (list edge * Generator) :=
  match all_edges with
  | [] => Ok (selected_edges, rng)
  | _ :: _ =>
      match fuel with
      | O => Raise OutOfFuel
      | S fuel' =>
          let (k, rng) := integers (Z.of_nat (length all_edges)) rng in
          '(rand_edge, all_edges) <- pop all_edges k ;;
          let selected_edges := selected_edges ++ [rand_edge] in
          let old_all_edges := all_edges in
          let all_edges :=
            filter (fun edge => not_in (fst rand_edge) edge
                                && not_in (snd rand_edge) edge)
                   old_all_edges in
          grab_edges fuel' all_edges selected_edges rng
      end
  end.

(** [two_qubit_prob > 1] *)
Definition gt_one (prob : pynum) : bool :=
  match prob with
  | PyInt n => 1 <? n
  | PyFloat f => float_ltb (float_of_int 1) f
  end.

(** [rng.random() < two_qubit_prob] *)
Definition lt_prob (r : float) (prob : pynum) : bool :=
  match prob with
  | PyInt n => float_ltb r (float_of_int n)
  | PyFloat f => float_ltb r f
  end.

(** [for edge in selected_edges_logical: ...] on the state
    [(qc, put_1_qubit_clifford, rng)]. *)
Fixpoint place_cnots (edges : list edge) (two_qubit_prob : pynum)
         (qc : QuantumCircuit) (put_1_qubit_clifford : list Z) (rng : Generator)
  : result (QuantumCircuit * list Z * Generator) :=
  match edges with
  | [] => Ok (qc, put_1_qubit_clifford, rng)
  | edge :: edges' =>
      let (r, rng) := random rng in
      if lt_prob r two_qubit_prob then
        qc <- QC.cx qc (fst edge) (snd edge) ;;
        let put_1_qubit_clifford :=
          setdiff1d put_1_qubit_clifford [fst edge; snd edge] in
        place_cnots edges' two_qubit_prob qc put_1_qubit_clifford rng
      else
        place_cnots edges' two_qubit_prob qc put_1_qubit_clifford rng
  end.

(** [for q in put_1_qubit_clifford: ...] on the state [(qc, rng)]. *)
Fixpoint place_cliffords (put_1_qubit_clifford : list Z)
         (qc : QuantumCircuit) (rng : Generator)
  : result (QuantumCircuit * Generator) :=
  match put_1_qubit_clifford with
  | [] => Ok (qc, rng)
  | q :: rest =>
      let (num, rng) := integers 24 rng in
      ds <- _unpack_num num CLIFFORD_1_QUBIT_SIG ;;
      '(i, j, p) <- unpack_ijp ds ;;
      place_cliffords rest (append_1_qubit_gates qc q i j p) rng
  end.

(** The locals of one turn of [for i in list(range(size))] as the turn
    ends, with the warnings it issued. *)
Record edgegrab_locals : Type := mk_edgegrab_locals {
  selected_edges : list edge;
  two_qubit_prob : pynum;
  warnings : list string;
  selected_edges_logical : list edge;
  put_1_qubit_clifford : list Z;
  qc : QuantumCircuit
}.

(** [two_qubit_gate_density] is a Python float: dividing it by the integer
    zero raises the [ZeroDivisionError] the source catches. *)
Definition edgegrab_circuit (qubits : list Z) (coupling_map : list edge)
           (two_qubit_gate_density : float) (rng : Generator)
  : result (edgegrab_locals * Generator) :=
  let num_qubits := length qubits in
  let all_edges := coupling_map in
  '(selected_edges, rng) <- grab_edges (length all_edges) all_edges [] rng ;;
  let qc := QC.new num_qubits in
  let two_qubit_prob := PyInt 0 in
  let '(two_qubit_prob, warnings) :=
    if Z.of_nat (length selected_edges) =? 0
    then (two_qubit_prob, [no_connectivity_warning])
    else (PyFloat (float_div
                     (float_mul (float_of_int (Z.of_nat num_qubits))
                                two_qubit_gate_density)
                     (float_of_int (Z.of_nat (length selected_edges)))),
          []) in
  let warnings :=
    if gt_one two_qubit_prob then warnings ++ [density_warning] else warnings in
  selected_edges_logical <- map_result (logical_edge qubits) selected_edges ;;
  let put_1_qubit_clifford := arange num_qubits in
  '(qc, put_1_qubit_clifford, rng) <-
    place_cnots selected_edges_logical two_qubit_prob qc put_1_qubit_clifford rng ;;
  '(qc, rng) <- place_cliffords put_1_qubit_clifford qc rng ;;
  Ok (mk_edgegrab_locals selected_edges two_qubit_prob warnings
                         selected_edges_logical put_1_qubit_clifford qc,
      rng).

Fixpoint edgegrab_loop (size : nat) (qubits : list Z) (coupling_map : list edge)
         (two_qubit_gate_density : float) (rng : Generator)
  : result (list edgegrab_locals * Generator) :=
  match size with
  | O => Ok ([], rng)
  | S size' =>
      '(l, rng) <- edgegrab_circuit qubits coupling_map two_qubit_gate_density rng ;;
      '(ls, rng) <- edgegrab_loop size' qubits coupling_map two_qubit_gate_density rng ;;
      Ok (l :: ls, rng)
  end.

Definition random_edgegrab_clifford_circuits
           (qubits : list Z) (coupling_map : list edge)
           (two_qubit_gate_density : float) (size : nat) (rng : rng_arg)
  : result (list QuantumCircuit) :=
  let num_qubits := Z.of_nat (length qubits) in
  if num_qubits =? 1 then random_clifford_circuits num_qubits size rng
  else
    let rng := resolve_rng rng in
    '(ls, _) <- edgegrab_loop size qubits coupling_map two_qubit_gate_density rng ;;
    Ok (map qc ls).

(** *** Target bit string *)

Definition compute_target_bitstring (circuit : QuantumCircuit) : string :=
  let phase_vector := table_phase (Clifford_of circuit) in
  let n := num_qubits circuit in
  String.concat EmptyString
    (map (fun phase : bool => if phase then "1" else "0")
         (rev (skipn n phase_vector)))%string.

End CliffordUtils.

(** ** Vocabulary of the specification

    The definitions below are written from the specification's words, to be
    compared with the program above. *)

(** [compose ds sig] is the sum of [d_i * (r_1 * ... * r_(i-1))], the
    composition the specification inverts unranking with. *)
Fixpoint compose_from (weight : Z) (ds sig : list Z) : Z :=
  match ds, sig with
  | d :: ds', r :: sig' => d * weight + compose_from (weight * r) ds' sig'
  | _, _ => 0
  end.

Definition compose (ds sig : list Z) : Z := compose_from 1 ds sig.

Definition digits_in_range (ds sig : list Z) : Prop :=
  Forall2 (fun d r => 0 <= d < r) ds sig.

Definition positive_radices (sig : list Z) : Prop :=
  Forall (fun r => 0 < r) sig.

(** The sum of the spans of a list of signatures. *)
Definition total_span (sigs : list (list Z)) : Z :=
  fold_right (fun sig acc => sig_size sig + acc) 0 sigs.

(** The layers of the synthesizers, as tables of the digits. *)
Definition hadamard_layer (i q : Z) : list Instruction :=
  match i with
  | 1 => [instr HGate [q]]
  | _ => []
  end.

Definition s_type_layer (j q : Z) : list Instruction :=
  match j with
  | 1 => [instr SXdgGate [q]]
  | 2 => [instr SGate [q]]
  | _ => []
  end.

Definition pauli_layer (p q : Z) : list Instruction :=
  match p with
  | 1 => [instr XGate [q]]
  | 2 => [instr YGate [q]]
  | 3 => [instr ZGate [q]]
  | _ => []
  end.

Definition cnot (c t : Z) : Instruction := instr CXGate [c; t].

Definition entangling_layer (form : Z) : list Instruction :=
  match form with
  | 1 => [cnot 0 1]
  | 2 => [cnot 0 1; cnot 1 0]
  | 3 => [cnot 0 1; cnot 1 0; cnot 0 1]
  | _ => []
  end.

Definition correction_0 (k0 : Z) : list Instruction :=
  match k0 with
  | 1 => [instr VGate [0]]
  | 2 => [instr WGate [0]]
  | _ => []
  end.

Definition correction_1 (k1 : Z) : list Instruction :=
  match k1 with
  | 1 => [instr VGate [1]]
  | 2 => [instr VGate [1]; instr VGate [1]]
  | _ => []
  end.

(** The three layers of the 1-qubit Clifford of index [num], on qubit [q]:
    the digits of [num] against (2, 3, 4) are [num mod 2], then
    [(num div 2) mod 3], then [((num div 2) div 3) mod 4]. *)
Definition one_qubit_layers (num q : Z) : list Instruction :=
  hadamard_layer (num mod 2) q
  ++ s_type_layer (num / 2 mod 3) q
  ++ pauli_layer (num / 2 / 3 mod 4) q.

(** Two edges share an endpoint. *)
Definition share_vertex (e1 e2 : edge) : Prop :=
  fst e1 = fst e2 \/ fst e1 = snd e2 \/ snd e1 = fst e2 \/ snd e1 = snd e2.

(** A matching: the edges at two different places of the list share no
    endpoint. *)
Definition vertex_disjoint (edges : list edge) : Prop :=
  ForallOrdPairs (fun e1 e2 => ~ share_vertex e1 e2) edges.

(** The instruction is a CNOT. *)
Definition is_cx (ins : Instruction) : bool :=
  match operation ins with CXGate => true | _ => false end.

(** The edge [e] has the qubit [q] as an endpoint. *)
Definition touches (q : Z) (e : edge) : bool :=
  (q =? fst e) || (q =? snd e).

Definition cnot_of (e : edge) : Instruction := cnot (fst e) (snd e).

(** Each of the qubits [0 .. n-1] is an endpoint of exactly one edge of
    [cnots] and is not in [singles], or is an endpoint of no edge of [cnots]
    and is exactly once in [singles]. *)
Definition covered_once (n : nat) (cnots : list edge) (singles : list Z) : Prop :=
  forall q, 0 <= q < Z.of_nat n ->
    (length (filter (touches q) cnots) = 1%nat /\
     count_occ Z.eq_dec singles q = 0%nat) \/
    (length (filter (touches q) cnots) = 0%nat /\
     count_occ Z.eq_dec singles q = 1%nat).

(** The layers of the 1-qubit Cliffords of indices [nums] on the qubits
    [singles], in their order. *)
Definition clifford_layers (singles nums : list Z) : list Instruction :=
  concat (map (fun qn => one_qubit_layers (snd qn) (fst qn))
              (combine singles nums)).

(** The circuit of a turn of the outer loop of the edge grab covers every
    qubit once: its instructions are the CNOTs of some of the matched
    logical edges, then the layers of one 1-qubit Clifford of [[0, 24)] for
    each qubit of [put_1_qubit_clifford]; the CNOTs are on two different
    logical qubits; and every logical qubit is an endpoint of exactly one of
    these CNOTs and not in [put_1_qubit_clifford], or on no CNOT and exactly
    once in it. *)
Definition turn_covered {N : Numerics} {Q : Qiskit}
           (qubits : list Z) (l : edgegrab_locals) : Prop :=
  exists cnots nums,
    incl cnots (selected_edges_logical l) /\
    Forall (fun e => 0 <= fst e < Z.of_nat (length qubits) /\
                     0 <= snd e < Z.of_nat (length qubits) /\
                     fst e <> snd e) cnots /\
    qc l = circuit (length qubits)
                   (map cnot_of cnots
                    ++ clifford_layers (put_1_qubit_clifford l) nums) /\
    length nums = length (put_1_qubit_clifford l) /\
    Forall (fun num => 0 <= num < NUM_CLIFFORD_1_QUBIT) nums /\
    covered_once (length qubits) cnots (put_1_qubit_clifford l).

(** The selected edges of a turn are edges of the coupling map that share
    no endpoint with one another. *)
Definition turn_matching {N : Numerics} {Q : Qiskit}
           (coupling_map : list edge) (l : edgegrab_locals) : Prop :=
  incl (selected_edges l) coupling_map /\
  vertex_disjoint (selected_edges l).

(** The character of a phase in the target string. *)
Definition bit_char (phase : bool) : ascii :=
  if phase then "1"%char else "0"%char.

(** What one turn leaves in its locals. *)
Definition turn_spec {N : Numerics} {Q : Qiskit}
           (qubits : list Z) (coupling_map : list edge)
           (l : edgegrab_locals) : Prop :=
  turn_matching coupling_map l /\
  map_result (logical_edge qubits) (selected_edges l) =
    Ok (selected_edges_logical l) /\
  turn_covered qubits l.

(** What a turn leaves when the coupling map is empty. *)
Definition degraded_turn {N : Numerics} {Q : Qiskit}
           (qubits : list Z) (l : edgegrab_locals) : Prop :=
  warnings l = [no_connectivity_warning] /\
  two_qubit_prob l = PyInt 0 /\
  selected_edges l = [] /\
  put_1_qubit_clifford l = arange (length qubits) /\
  (exists nums,
      length nums = length qubits /\
      Forall (fun num => 0 <= num < NUM_CLIFFORD_1_QUBIT) nums /\
      qc l = circuit (length qubits)
                     (clifford_layers (arange (length qubits)) nums)) /\
  Forall (fun ins => is_cx ins = false /\ length (qargs ins) = 1%nat)
         (data (qc l)).

(** The index that a form and its digits stand for against a list of
    signatures: the spans of the signatures before the form, plus the
    composition of the digits against the signature of the form. *)
Definition compose_multi (sigs : list (list Z)) (form : Z) (ds : list Z) : Z :=
  total_span (firstn (Z.to_nat form) sigs)
  + compose ds (nth (Z.to_nat form) sigs []).

(** *** Reading an index back off a gate sequence

    The inverse of synthesis: the digits are read off the head of the gate
    sequence layer by layer, in the order of synthesis, and composed. *)

Definition gate_eqb (g1 g2 : Gate) : bool :=
  match g1, g2 with
  | HGate, HGate | SGate, SGate | SdgGate, SdgGate | SXdgGate, SXdgGate
  | XGate, XGate | YGate, YGate | ZGate, ZGate | CXGate, CXGate
  | VGate, VGate | WGate, WGate => true
  | _, _ => false
  end.

Definition instruction_eqb (a b : Instruction) : bool :=
  gate_eqb (operation a) (operation b)
  && (if list_eq_dec Z.eq_dec (qargs a) (qargs b) then true else false).

(** Reads the instruction [ins] off the head of a gate sequence. *)
Definition read (ins : Instruction) (l : list Instruction)
  : option (list Instruction) :=
  match l with
  | ins' :: rest => if instruction_eqb ins' ins then Some rest else None
  | [] => None
  end.

(** Reads one of the layers of a table off the head of a gate sequence: the
    digit of the first layer of the table that the sequence starts with, and
    the digit 0 when it starts with none. *)
Fixpoint read_layer (table : list (Z * list Instruction)) (l : list Instruction)
  : Z * list Instruction :=
  match table with
  | [] => (0, l)
  | (digit, layer) :: table' =>
      match fold_left
              (fun acc ins => match acc with Some r => read ins r | None => None end)
              layer (Some l) with
      | Some rest => (digit, rest)
      | None => read_layer table' l
      end
  end.

Definition rank_1_qubit (d : list Instruction) : Z :=
  let (h, d) := read_layer [(1, hadamard_layer 1 0)] d in
  let (s, d) := read_layer [(1, s_type_layer 1 0); (2, s_type_layer 2 0)] d in
  let (p, d) := read_layer [(1, pauli_layer 1 0); (2, pauli_layer 2 0);
                            (3, pauli_layer 3 0)] d in
  compose [h; s; p] CLIFFORD_1_QUBIT_SIG.

Definition rank_2_qubit (d : list Instruction) : Z :=
  let (i0, d) := read_layer [(1, hadamard_layer 1 0)] d in
  let (i1, d) := read_layer [(1, hadamard_layer 1 1)] d in
  let (j0, d) := read_layer [(1, s_type_layer 1 0); (2, s_type_layer 2 0)] d in
  let (j1, d) := read_layer [(1, s_type_layer 1 1); (2, s_type_layer 2 1)] d in
  let (form, d) := read_layer [(3, entangling_layer 3); (2, entangling_layer 2);
                               (1, entangling_layer 1)] d in
  let (k0, d) := read_layer [(1, correction_0 1); (2, correction_0 2)] d in
  let (k1, d) := read_layer [(2, correction_1 2); (1, correction_1 1)] d in
  let (p0, d) := read_layer [(1, pauli_layer 1 0); (2, pauli_layer 2 0);
                             (3, pauli_layer 3 0)] d in
  let (p1, d) := read_layer [(1, pauli_layer 1 1); (2, pauli_layer 2 1);
                             (3, pauli_layer 3 1)] d in
  if (form =? 1) || (form =? 2)
  then compose_multi CLIFFORD_2_QUBIT_SIGS form [i0; i1; j0; j1; k0; k1; p0; p1]
  else compose_multi CLIFFORD_2_QUBIT_SIGS form [i0; i1; j0; j1; p0; p1].

(** The synthesis of [num] returns a circuit whose gate sequence reads back
    as [num]. *)
Definition reads_back (synth : Z -> result QuantumCircuit)
           (rank : list Instruction -> Z) (num : Z) : bool :=
  match synth num with
  | Ok qc => rank (data qc) =? num
  | Raise _ => false
  end.

(** An instruction fits a register of [n] qubits: its qubits are different
    qubits of the register, two for a CNOT and one for the other gates. *)
Definition fits_register (n : nat) (ins : Instruction) : Prop :=
  Forall (fun q => 0 <= q < Z.of_nat n) (qargs ins) /\
  NoDup (qargs ins) /\
  length (qargs ins) = (if is_cx ins then 2 else 1)%nat.

(** The number of CNOTs of a gate sequence. *)
Definition count_cx (d : list Instruction) : nat := length (filter is_cx d).

(** A gate sequence fits a register of [n] qubits, has at most [max_len]
    instructions and exactly [cx] CNOTs. *)
Definition shaped (n : nat) (max_len cx : nat) (d : list Instruction) : Prop :=
  Forall (fits_register n) d /\
  (length d <= max_len)%nat /\
  count_cx d = cx.

(** ** The parallel experiment helper

    [MockIQParallelExperimentHelper._create_qubit_exp_map] of
    [qiskit_experiments/test/mock_iq_helpers.py].  The experiments are
    objects of a class of the framework, of which the function reads
    [physical_qubits] only: they are a type variable with that attribute.
    The dictionary built is a list of keys and values in insertion order. *)

Inductive outcome (A : Type) : Type :=
| Returned (a : A)
| QiskitError (message : string).

Arguments Returned {A} a.
Arguments QiskitError {A} message.

Definition duplications_message : string :=
  "There are duplications of qubits between parallel experiments".

Section ParallelHelper.

Variable BaseExperiment : Type.
Variable physical_qubits : BaseExperiment -> list Z.

(** [qubit in mapping.keys()] *)
Definition has_key (qubit : Z) (mapping : list (Z * BaseExperiment)) : bool :=
  existsb (fun kv => qubit =? fst kv) mapping.

(** [mapping[qubit]] of a key that the dictionary has, as an option. *)
Fixpoint get_key (qubit : Z) (mapping : list (Z * BaseExperiment))
  : option BaseExperiment :=
  match mapping with
  | [] => None
  | (k, v) :: mapping' => if qubit =? k then Some v else get_key qubit mapping'
  end.

(** [for qubit in exp.physical_qubits: ...] on the dictionary. *)
Fixpoint add_qubits (exp : BaseExperiment) (qubits : list Z)
         (qubit_experiment_mapping : list (Z * BaseExperiment))
  : outcome (list (Z * BaseExperiment)) :=
  match qubits with
  | [] => Returned qubit_experiment_mapping
  | qubit :: qubits' =>
      if negb (has_key qubit qubit_experiment_mapping)
      then add_qubits exp qubits' (qubit_experiment_mapping ++ [(qubit, exp)])
      else QiskitError duplications_message
  end.

(** [for exp in self.exp_list: ...] on the dictionary. *)
Fixpoint add_experiments (exp_list : list BaseExperiment)
         (qubit_experiment_mapping : list (Z * BaseExperiment))
  : outcome (list (Z * BaseExperiment)) :=
  match exp_list with
  | [] => Returned qubit_experiment_mapping
  | exp :: exp_list' =>
      match add_qubits exp (physical_qubits exp) qubit_experiment_mapping with
      | Returned mapping => add_experiments exp_list' mapping
      | QiskitError message => QiskitError message
      end
  end.

Definition _create_qubit_exp_map (exp_list : list BaseExperiment)
  : outcome (list (Z * BaseExperiment)) :=
  add_experiments exp_list [].

(** The physical qubits of all the experiments, in their order, and each
    of them with its experiment. *)
Definition all_physical_qubits (exp_list : list BaseExperiment) : list Z :=
  concat (map physical_qubits exp_list).

Definition qubits_with_experiments (exp_list : list BaseExperiment)
  : list (Z * BaseExperiment) :=
  concat (map (fun exp => map (fun q => (q, exp)) (physical_qubits exp)) exp_list).

End ParallelHelper.

(** ** An instance of the collaborators

    A deterministic generator (a counter), fixed-point numbers in
    hundredths for the floats, and circuits standing for their own Clifford
    elements.  [pauli_phase] is the phase vector of a circuit of Pauli gates:
    X on [q] negates the stabilizer [q], Z on [q] the destabilizer [q], Y
    both; it is used on such circuits only.  The instance serves the
    examples; no theorem depends on it. *)

Definition counter_numerics : Numerics := {|
  Generator := Z;
  float := Z;
  default_rng := fun seed => match seed with Some s => s | None => 0 end;
  integers := fun high g => (g mod high, g + 1);
  integers_size := fun high n g =>
    (map (fun k => (g + Z.of_nat k) mod high) (seq 0 n), g + Z.of_nat n);
  random := fun g => ((37 * g) mod 100, g + 1);
  float_of_int := fun n => 100 * n;
  float_mul := fun a b => a * b / 100;
  float_div := fun a b => 100 * a / b;
  float_ltb := Z.ltb
|}.

Fixpoint flip (k : nat) (v : list bool) : list bool :=
  match v, k with
  | [], _ => []
  | b :: v', O => negb b :: v'
  | b :: v', S k' => b :: flip k' v'
  end.

Definition pauli_phase (c : QuantumCircuit) : list bool :=
  let n := num_qubits c in
  fold_left
    (fun v ins =>
       match operation ins, qargs ins with
       | XGate, [q] => flip (n + Z.to_nat q) v
       | ZGate, [q] => flip (Z.to_nat q) v
       | YGate, [q] => flip (Z.to_nat q) (flip (n + Z.to_nat q) v)
       | _, _ => v
       end)
    (data c) (repeat false (2 * n)).

Definition circuits_qiskit : @Qiskit counter_numerics := {|
  Clifford := QuantumCircuit;
  Clifford_of := fun c => c;
  to_circuit := fun c => c;
  table_phase := pauli_phase;
  random_clifford := fun n rng => (circuit (Z.to_nat n) [], rng)
|}.

(** * Part II: the properties *)

(** ** The [result] monad *)

Lemma bind_ok {A B} (c : result A) (k : A -> result B) (b : B) :
  bind c k = Ok b -> exists a, c = Ok a /\ k a = Ok b.
Proof. destruct c as [a|e]; simpl; [eauto | discriminate]. Qed.

Ltac bind_inv H :=
  let a := fresh "a" in
  let Ha := fresh "H" a in
  apply bind_ok in H as (a & Ha & H).

(** ** Spans *)

Lemma fold_mul_scale (sig : list Z) (a : Z) :
  fold_left Z.mul sig a = a * fold_left Z.mul sig 1.
Proof.
  revert a; induction sig as [|k sig IH]; intros a; cbn [fold_left].
  - lia.
  - rewrite (IH (a * k)), (IH (1 * k)). lia.
Qed.

Lemma sig_size_cons (k : Z) (sig : list Z) :
  sig_size (k :: sig) = k * sig_size sig.
Proof.
  unfold sig_size; cbn [fold_left]. rewrite fold_mul_scale. lia.
Qed.

Lemma sig_size_pos (sig : list Z) :
  positive_radices sig -> 0 < sig_size sig.
Proof.
  induction 1 as [|k sig Hk _ IH].
  - reflexivity.
  - rewrite sig_size_cons. lia.
Qed.

(** ** Unranking against one signature *)

Lemma compose_from_scale (w : Z) (ds sig : list Z) :
  compose_from w ds sig = w * compose ds sig.
Proof.
  unfold compose. revert w sig.
  induction ds as [|d ds IH]; intros w [|r sig]; cbn [compose_from]; try lia.
  rewrite (IH (w * r)), (IH (1 * r)). lia.
Qed.

Lemma compose_cons (d r : Z) (ds sig : list Z) :
  compose (d :: ds) (r :: sig) = d + r * compose ds sig.
Proof.
  unfold compose at 1; cbn [compose_from]. rewrite compose_from_scale. lia.
Qed.

(** The accumulator of the loop is a prefix of its result. *)
Lemma unpack_loop_acc (sig res : list Z) (num : Z) :
  unpack_loop sig res num =
  (ds <- unpack_loop sig [] num ;; Ok (res ++ ds)).
Proof.
  revert res num; induction sig as [|k sig IH]; intros res num; simpl.
  - now rewrite app_nil_r.
  - destruct (k =? 0); [reflexivity|].
    rewrite (IH (res ++ [num mod k])), (IH [num mod k]).
    destruct (unpack_loop sig [] (num / k)); simpl; [|reflexivity].
    now rewrite <- app_assoc.
Qed.

Lemma unpack_num_cons (num k : Z) (sig : list Z) :
  k <> 0 ->
  _unpack_num num (k :: sig) =
  (ds <- _unpack_num (num / k) sig ;; Ok (num mod k :: ds)).
Proof.
  intros Hk. unfold _unpack_num; simpl.
  destruct (Z.eqb_spec k 0); [contradiction|].
  now rewrite unpack_loop_acc.
Qed.

(** With positive radices the loop never raises, whatever the number. *)
Lemma unpack_num_total (sig : list Z) :
  positive_radices sig ->
  forall num, exists ds, _unpack_num num sig = Ok ds /\ length ds = length sig.
Proof.
  induction 1 as [|k sig Hk _ IH]; intros num.
  - exists []. split; reflexivity.
  - destruct (IH (num / k)) as (ds & Hds & Hlen).
    exists (num mod k :: ds). rewrite unpack_num_cons by lia.
    rewrite Hds; simpl. split; [reflexivity | now rewrite Hlen].
Qed.

Lemma unpack_num_digits (sig : list Z) :
  positive_radices sig ->
  forall num ds, _unpack_num num sig = Ok ds -> digits_in_range ds sig.
Proof.
  induction 1 as [|k sig Hk _ IH]; intros num ds Hu.
  - inversion Hu; constructor.
  - rewrite unpack_num_cons in Hu by lia.
    bind_inv Hu. inversion Hu; subst.
    constructor; [apply Z.mod_pos_bound; lia | eapply IH; eauto].
Qed.

Lemma unpack_num_compose (sig : list Z) :
  positive_radices sig ->
  forall num ds, 0 <= num < sig_size sig ->
    _unpack_num num sig = Ok ds -> compose ds sig = num.
Proof.
  induction 1 as [|k sig Hk Hsig IH]; intros num ds Hrange Hu.
  - inversion Hu; subst. unfold sig_size in Hrange; simpl in *.
    unfold compose; simpl. lia.
  - rewrite unpack_num_cons in Hu by lia.
    bind_inv Hu. inversion Hu; subst.
    rewrite compose_cons, sig_size_cons in *.
    rewrite (IH (num / k) a); auto.
    + pose proof (Z.div_mod num k). lia.
    + split; [apply Z.div_pos; lia | apply Z.div_lt_upper_bound; lia].
Qed.

(** The digits only depend on the number modulo the span: the loop does not
    check that the number is below the span. *)
Lemma unpack_num_wraps (sig : list Z) :
  positive_radices sig ->
  forall num, _unpack_num num sig = _unpack_num (num mod sig_size sig) sig.
Proof.
  induction 1 as [|k sig Hk Hsig IH]; intros num.
  - reflexivity.
  - pose proof (sig_size_pos Hsig) as Hpos.
    rewrite !unpack_num_cons by lia. rewrite sig_size_cons.
    rewrite (IH (num / k)), (IH (num mod (k * sig_size sig) / k)).
    rewrite Z.rem_mul_r by lia.
    replace ((num mod k + k * ((num / k) mod sig_size sig)) / k)
      with ((num / k) mod sig_size sig).
    2:{ rewrite (Z.mul_comm k), Z.div_add by lia.
        rewrite (Z.div_small (num mod k) k) by (apply Z.mod_pos_bound; lia). lia. }
    rewrite Z.mod_mod by lia.
    replace ((num mod k + k * ((num / k) mod sig_size sig)) mod k)
      with (num mod k).
    2:{ rewrite (Z.mul_comm k), Z.mod_add by lia.
        now rewrite Z.mod_mod by lia. }
    reflexivity.
Qed.

(** ** Claims on unranking *)

(** C1. For a signature of positive radices and an index below its span,
    [_unpack_num] returns digits [d_i] with [0 <= d_i < r_i] whose
    composition (the sum of [d_i] times the product of the radices before
    it) is the index; hence no other index of the range has these digits. *)
Theorem unpack_num_roundtrip (sig : list Z) (index : Z) :
  positive_radices sig ->
  0 <= index < sig_size sig ->
  exists ds,
    _unpack_num index sig = Ok ds /\
    digits_in_range ds sig /\
    compose ds sig = index /\
    (forall index', 0 <= index' < sig_size sig -> index' <> index ->
       _unpack_num index' sig <> Ok ds).
Proof.
  intros Hsig Hrange.
  destruct (unpack_num_total Hsig index) as (ds & Hds & _).
  exists ds. repeat split; auto.
  - eapply unpack_num_digits; eauto.
  - eapply unpack_num_compose; eauto.
  - intros index' Hrange' Hneq Hds'. apply Hneq.
    rewrite <- (unpack_num_compose Hsig Hrange' Hds').
    now apply unpack_num_compose.
Qed.

Lemma unpack_num_roundtrip_witness :
  exists ds,
    _unpack_num 17 CLIFFORD_1_QUBIT_SIG = Ok ds /\
    digits_in_range ds CLIFFORD_1_QUBIT_SIG /\
    compose ds CLIFFORD_1_QUBIT_SIG = 17 /\
    (forall index', 0 <= index' < sig_size CLIFFORD_1_QUBIT_SIG -> index' <> 17 ->
       _unpack_num index' CLIFFORD_1_QUBIT_SIG <> Ok ds).
Proof.
  apply (@unpack_num_roundtrip CLIFFORD_1_QUBIT_SIG 17).
  - repeat constructor.
  - vm_compute. split; [discriminate | reflexivity].
Defined.

(** ** Unranking against several signatures *)

Lemma total_span_nonneg (sigs : list (list Z)) :
  Forall positive_radices sigs -> 0 <= total_span sigs.
Proof.
  induction 1 as [|sig sigs Hs _ IH]; simpl.
  - lia.
  - pose proof (sig_size_pos Hs). lia.
Qed.

(** At or above the sum of the spans the loop runs through every signature
    and returns [None]: it raises nothing. *)
Lemma multi_sigs_loop_none (sigs : list (list Z)) :
  Forall positive_radices sigs ->
  forall i num, total_span sigs <= num -> multi_sigs_loop i sigs num = Ok None.
Proof.
  induction 1 as [|sig sigs Hs Hrest IH]; intros i num Hnum; simpl in *.
  - reflexivity.
  - pose proof (total_span_nonneg Hrest).
    destruct (Z.ltb_spec num (sig_size sig)); [lia|].
    apply IH. lia.
Qed.

(** Below the sum of the spans, the index is owned by the first signature
    whose span exceeds what is left of it after the spans before. *)
Lemma multi_sigs_loop_some (sigs : list (list Z)) :
  Forall positive_radices sigs ->
  forall i num, 0 <= num < total_span sigs ->
  exists k sig ds,
    nth_error sigs k = Some sig /\
    total_span (firstn k sigs) <= num < total_span (firstn k sigs) + sig_size sig /\
    _unpack_num (num - total_span (firstn k sigs)) sig = Ok ds /\
    length ds = length sig /\
    multi_sigs_loop i sigs num = Ok (Some (i + Z.of_nat k :: ds)).
Proof.
  induction 1 as [|sig sigs Hs Hrest IH]; intros i num Hnum; simpl in Hnum.
  - lia.
  - cbn [multi_sigs_loop].
    destruct (Z.ltb_spec num (sig_size sig)) as [Hlt|Hge].
    + destruct (unpack_num_total Hs num) as (ds & Hds & Hlen).
      exists 0%nat, sig, ds. simpl. rewrite Z.sub_0_r, Z.add_0_r, Hds.
      repeat split; auto; lia.
    + destruct (IH (i + 1) (num - sig_size sig)) as (k & sig' & ds & Hk & Hoff & Hds & Hlen & Hres);
        [lia|].
      exists (S k), sig', ds. cbn [nth_error firstn total_span fold_right].
      fold (total_span (firstn k sigs)).
      replace (num - (sig_size sig + total_span (firstn k sigs)))
        with (num - sig_size sig - total_span (firstn k sigs)) by lia.
      rewrite Hres. repeat split; auto; try lia.
      do 3 f_equal. lia.
Qed.

Lemma clifford_2_qubit_sigs_positive :
  Forall positive_radices CLIFFORD_2_QUBIT_SIGS.
Proof. repeat constructor. Qed.

(** The form and the digits of a 2-qubit index of the range. *)
Lemma unpack_2_qubit_index (num : Z) :
  0 <= num < NUM_CLIFFORD_2_QUBIT ->
  exists form ds,
    _unpack_num_multi_sigs num CLIFFORD_2_QUBIT_SIGS = Ok (Some (form :: ds)) /\
    (form = 0 /\ 0 <= num < 576 /\ digits_in_range ds [2; 2; 3; 3; 4; 4] \/
     form = 1 /\ 576 <= num < 5760 /\ digits_in_range ds [2; 2; 3; 3; 3; 3; 4; 4] \/
     form = 2 /\ 5760 <= num < 10944 /\ digits_in_range ds [2; 2; 3; 3; 3; 3; 4; 4] \/
     form = 3 /\ 10944 <= num < 11520 /\ digits_in_range ds [2; 2; 3; 3; 4; 4]).
Proof.
  intros Hnum.
  destruct (multi_sigs_loop_some clifford_2_qubit_sigs_positive 0 (num := num))
    as (k & sig & ds & Hk & Hoff & Hds & _ & Hres); [exact Hnum|].
  exists (0 + Z.of_nat k), ds. split; [exact Hres|].
  assert (Hdigits : digits_in_range ds sig).
  { apply unpack_num_digits with (num := num - total_span (firstn k CLIFFORD_2_QUBIT_SIGS));
      [|exact Hds].
    pose proof clifford_2_qubit_sigs_positive as Hall.
    rewrite Forall_forall in Hall. apply Hall. eapply nth_error_In; eauto. }
  destruct k as [|[|[|[|k]]]]; simpl in Hk.
  - injection Hk as <-. left.
    unfold total_span, sig_size in Hoff; simpl in Hoff. simpl. auto with zarith.
  - injection Hk as <-. right; left.
    unfold total_span, sig_size in Hoff; simpl in Hoff. simpl. auto with zarith.
  - injection Hk as <-. right; right; left.
    unfold total_span, sig_size in Hoff; simpl in Hoff. simpl. auto with zarith.
  - injection Hk as <-. right; right; right.
    unfold total_span, sig_size in Hoff; simpl in Hoff. simpl. auto with zarith.
  - destruct k; discriminate.
Qed.

(** C8. The spans of the four 2-qubit signatures are 576, 5184, 5184 and
    576; they sum to 11520, the size of the 2-qubit group; and every index
    of [[0, 11520)] is owned by exactly the form whose range of consecutive
    indices holds it. *)
Theorem form_spans_partition :
  map sig_size CLIFFORD_2_QUBIT_SIGS = [576; 5184; 5184; 576] /\
  total_span CLIFFORD_2_QUBIT_SIGS = NUM_CLIFFORD_2_QUBIT /\
  (forall num, 0 <= num < NUM_CLIFFORD_2_QUBIT ->
     exists form ds,
       _unpack_num_multi_sigs num CLIFFORD_2_QUBIT_SIGS = Ok (Some (form :: ds)) /\
       (form = 0 /\ 0 <= num < 576 \/
        form = 1 /\ 576 <= num < 576 + 5184 \/
        form = 2 /\ 576 + 5184 <= num < 576 + 5184 + 5184 \/
        form = 3 /\ 576 + 5184 + 5184 <= num < NUM_CLIFFORD_2_QUBIT)).
Proof.
  split; [reflexivity|]. split; [reflexivity|].
  intros num Hnum.
  destruct (unpack_2_qubit_index Hnum) as (form & ds & Hres & Hform).
  exists form, ds. split; [exact Hres|].
  unfold NUM_CLIFFORD_2_QUBIT. intuition lia.
Qed.

(** ** Synthesis *)

(** The tables of the layers against the tests of the program. *)
Lemma hadamard_layer_if (i q : Z) :
  hadamard_layer i q = if i =? 1 then [instr HGate [q]] else [].
Proof. destruct i as [|[p|p|]|p]; reflexivity. Qed.

Lemma s_type_layer_if (j q : Z) :
  s_type_layer j q =
  (if j =? 1 then [instr SXdgGate [q]] else [])
  ++ (if j =? 2 then [instr SGate [q]] else []).
Proof. destruct j as [|[p|[p|p|]|]|p]; reflexivity. Qed.

Lemma pauli_layer_if (p q : Z) :
  pauli_layer p q =
  (if p =? 1 then [instr XGate [q]] else [])
  ++ (if p =? 2 then [instr YGate [q]] else [])
  ++ (if p =? 3 then [instr ZGate [q]] else []).
Proof. destruct p as [|[[r|r|]|[r|r|]|]|r]; reflexivity. Qed.

Lemma correction_0_if (k0 : Z) :
  correction_0 k0 =
  (if k0 =? 1 then [instr VGate [0]] else [])
  ++ (if k0 =? 2 then [instr WGate [0]] else []).
Proof. destruct k0 as [|[p|[p|p|]|]|p]; reflexivity. Qed.

Lemma correction_1_if (k1 : Z) :
  correction_1 k1 =
  (if k1 =? 1 then [instr VGate [1]] else [])
  ++ (if k1 =? 2 then [instr VGate [1]; instr VGate [1]] else []).
Proof. destruct k1 as [|[p|[p|p|]|]|p]; reflexivity. Qed.

(** A guarded append on a circuit appends a guarded instruction. *)
Lemma if_append (b : bool) (n : nat) (d : list Instruction) (g : Gate) (qs : list Z) :
  (if b then QC._append (circuit n d) g qs else circuit n d) =
  circuit n (d ++ if b then [instr g qs] else []).
Proof. destruct b; simpl; [reflexivity | now rewrite app_nil_r]. Qed.

Lemma append_1_qubit_gates_layers (n : nat) (d : list Instruction) (q i j p : Z) :
  append_1_qubit_gates (circuit n d) q i j p =
  circuit n (d ++ hadamard_layer i q ++ s_type_layer j q ++ pauli_layer p q).
Proof.
  rewrite hadamard_layer_if, s_type_layer_if, pauli_layer_if.
  unfold append_1_qubit_gates.
  destruct (i =? 1), (j =? 1), (j =? 2), (p =? 1), (p =? 2), (p =? 3);
    cbv [QC.h QC.x QC.y QC.z QC._append data num_qubits];
    rewrite <- ?app_assoc; cbn [app]; rewrite ?app_nil_r; reflexivity.
Qed.

Lemma unpack_1_qubit_index (num : Z) :
  _unpack_num num CLIFFORD_1_QUBIT_SIG =
  Ok [num mod 2; num / 2 mod 3; num / 2 / 3 mod 4].
Proof. reflexivity. Qed.

Lemma clifford_1_qubit_circuit_layers (num : Z) :
  clifford_1_qubit_circuit num = Ok (circuit 1 (one_qubit_layers num 0)).
Proof.
  unfold clifford_1_qubit_circuit. rewrite unpack_1_qubit_index.
  cbn [bind unpack_ijp]. unfold QC.new.
  now rewrite append_1_qubit_gates_layers.
Qed.

(** C7. For an index of [[0, 24)], with the digits [(h, s, p)] of the
    signature (2, 3, 4), the circuit of [clifford_1_qubit_circuit] is the
    Hadamard layer (H when [h] is 1), then the S-type layer (inverse
    square root of X when [s] is 1, S when [s] is 2), then the Pauli layer
    (X, Y, Z when [p] is 1, 2, 3), on one qubit, and nothing else. *)
Theorem clifford_1_qubit_circuit_spec (num : Z) :
  0 <= num < NUM_CLIFFORD_1_QUBIT ->
  exists h s p,
    _unpack_num num CLIFFORD_1_QUBIT_SIG = Ok [h; s; p] /\
    (0 <= h < 2 /\ 0 <= s < 3 /\ 0 <= p < 4) /\
    clifford_1_qubit_circuit num =
    Ok (circuit 1 (hadamard_layer h 0 ++ s_type_layer s 0 ++ pauli_layer p 0)).
Proof.
  intros Hnum.
  exists (num mod 2), (num / 2 mod 3), (num / 2 / 3 mod 4).
  split; [apply unpack_1_qubit_index|]. split.
  - repeat split; try (apply Z.mod_pos_bound; lia).
  - apply clifford_1_qubit_circuit_layers.
Qed.

Lemma clifford_1_qubit_circuit_spec_witness :
  exists h s p,
    _unpack_num 17 CLIFFORD_1_QUBIT_SIG = Ok [h; s; p] /\
    (0 <= h < 2 /\ 0 <= s < 3 /\ 0 <= p < 4) /\
    clifford_1_qubit_circuit 17 =
    Ok (circuit 1 (hadamard_layer h 0 ++ s_type_layer s 0 ++ pauli_layer p 0)).
Proof.
  apply (@clifford_1_qubit_circuit_spec 17).
  unfold NUM_CLIFFORD_1_QUBIT. lia.
Defined.

Lemma bind_Ok {A B} (a : A) (k : A -> result B) : bind (Ok a) k = k a.
Proof. reflexivity. Qed.

Lemma cx_circuit (n : nat) (d : list Instruction) (c t : Z) :
  c <> t -> QC.cx (circuit n d) c t = Ok (circuit n (d ++ [cnot c t])).
Proof.
  intros Hct. unfold QC.cx. now destruct (Z.eqb_spec c t).
Qed.

Lemma append_corrections_layers (n : nat) (d : list Instruction)
      (l : locals_2q) (a b : Z) :
  k0 l = Some a -> k1 l = Some b ->
  append_corrections (circuit n d) l =
  Ok (circuit n (d ++ correction_0 a ++ correction_1 b)).
Proof.
  intros Ha Hb. unfold append_corrections. rewrite Ha, Hb.
  cbn [read_local bind]. rewrite correction_0_if, correction_1_if.
  destruct (a =? 1), (a =? 2), (b =? 1), (b =? 2);
    cbv [QC._append data num_qubits];
    rewrite <- ?app_assoc; cbn [app]; rewrite ?app_nil_r; reflexivity.
Qed.

(** The tests on a form that is a numeral are decided. *)
Ltac closed_tests :=
  repeat match goal with
         | |- context [in_tuple ?a ?l] =>
             let b := eval vm_compute in (in_tuple a l) in
             change (in_tuple a l) with b
         end;
  try change (0 =? 3) with false;
  try change (1 =? 3) with false;
  try change (2 =? 3) with false;
  try change (3 =? 3) with true;
  cbv iota.

(** Runs the body of [clifford_2_qubit_circuit] on bound locals: every
    guarded append becomes a guarded instruction of the data. *)
Ltac run_2q :=
  rewrite bind_Ok;
  cbv beta iota zeta delta [i0 i1 j0 j1 p0 p1 form];
  unfold QC.h, QC.s, QC.sxdg, QC.x, QC.y, QC.z;
  rewrite !if_append;
  closed_tests;
  repeat first
    [ rewrite bind_Ok
    | rewrite cx_circuit by discriminate
    | erewrite append_corrections_layers by reflexivity ];
  rewrite !if_append;
  rewrite !hadamard_layer_if, !s_type_layer_if, !pauli_layer_if,
          ?correction_0_if, ?correction_1_if;
  cbn [entangling_layer];
  rewrite <- ?app_assoc; cbn [app]; reflexivity.

Lemma clifford_2_qubit_circuit_form_0_3 (num form i0 i1 j0 j1 p0 p1 : Z) :
  form = 0 \/ form = 3 ->
  _unpack_num_multi_sigs num CLIFFORD_2_QUBIT_SIGS =
  Ok (Some [form; i0; i1; j0; j1; p0; p1]) ->
  clifford_2_qubit_circuit num =
  Ok (circuit 2 (hadamard_layer i0 0 ++ hadamard_layer i1 1
                 ++ s_type_layer j0 0 ++ s_type_layer j1 1
                 ++ entangling_layer form
                 ++ pauli_layer p0 0 ++ pauli_layer p1 1)).
Proof.
  intros Hform H. unfold clifford_2_qubit_circuit. rewrite H, bind_Ok.
  unfold QC.new.
  destruct Hform; subst form.
  - change (unpack_vals (Some [0; i0; i1; j0; j1; p0; p1]))
      with (Ok (mk_locals_2q 0 i0 i1 j0 j1 None None p0 p1)).
    run_2q.
  - change (unpack_vals (Some [3; i0; i1; j0; j1; p0; p1]))
      with (Ok (mk_locals_2q 3 i0 i1 j0 j1 None None p0 p1)).
    run_2q.
Qed.

Lemma clifford_2_qubit_circuit_form_1_2 (num form i0 i1 j0 j1 k0 k1 p0 p1 : Z) :
  form = 1 \/ form = 2 ->
  _unpack_num_multi_sigs num CLIFFORD_2_QUBIT_SIGS =
  Ok (Some [form; i0; i1; j0; j1; k0; k1; p0; p1]) ->
  clifford_2_qubit_circuit num =
  Ok (circuit 2 (hadamard_layer i0 0 ++ hadamard_layer i1 1
                 ++ s_type_layer j0 0 ++ s_type_layer j1 1
                 ++ entangling_layer form
                 ++ correction_0 k0 ++ correction_1 k1
                 ++ pauli_layer p0 0 ++ pauli_layer p1 1)).
Proof.
  intros Hform H. unfold clifford_2_qubit_circuit. rewrite H, bind_Ok.
  unfold QC.new.
  destruct Hform; subst form.
  - change (unpack_vals (Some [1; i0; i1; j0; j1; k0; k1; p0; p1]))
      with (Ok (mk_locals_2q 1 i0 i1 j0 j1 (Some k0) (Some k1) p0 p1)).
    run_2q.
  - change (unpack_vals (Some [2; i0; i1; j0; j1; k0; k1; p0; p1]))
      with (Ok (mk_locals_2q 2 i0 i1 j0 j1 (Some k0) (Some k1) p0 p1)).
    run_2q.
Qed.

Ltac invert_digits :=
  repeat match goal with
         | H : digits_in_range _ _ |- _ => unfold digits_in_range in H
         | H : Forall2 _ _ (_ :: _) |- _ => inversion H; clear H; subst
         | H : Forall2 _ _ [] |- _ => inversion H; clear H; subst
         end.

Lemma clifford_2_qubit_circuit_cases (num : Z) :
  0 <= num < NUM_CLIFFORD_2_QUBIT ->
  exists form ds,
    _unpack_num_multi_sigs num CLIFFORD_2_QUBIT_SIGS = Ok (Some (form :: ds)) /\
    (((form = 0 \/ form = 3) /\
      exists i0 i1 j0 j1 p0 p1,
        ds = [i0; i1; j0; j1; p0; p1] /\
        clifford_2_qubit_circuit num =
        Ok (circuit 2 (hadamard_layer i0 0 ++ hadamard_layer i1 1
                       ++ s_type_layer j0 0 ++ s_type_layer j1 1
                       ++ entangling_layer form
                       ++ pauli_layer p0 0 ++ pauli_layer p1 1)))
     \/
     ((form = 1 \/ form = 2) /\
      exists i0 i1 j0 j1 k0 k1 p0 p1,
        ds = [i0; i1; j0; j1; k0; k1; p0; p1] /\
        0 <= k0 < 3 /\ 0 <= k1 < 3 /\
        clifford_2_qubit_circuit num =
        Ok (circuit 2 (hadamard_layer i0 0 ++ hadamard_layer i1 1
                       ++ s_type_layer j0 0 ++ s_type_layer j1 1
                       ++ entangling_layer form
                       ++ correction_0 k0 ++ correction_1 k1
                       ++ pauli_layer p0 0 ++ pauli_layer p1 1)))).
Proof.
  intros Hnum.
  destruct (unpack_2_qubit_index Hnum) as (form & ds & Hres & Hform).
  exists form, ds. split; [exact Hres|].
  destruct Hform as [(-> & _ & Hd)|[(-> & _ & Hd)|[(-> & _ & Hd)|(-> & _ & Hd)]]];
    invert_digits.
  - left. split; [auto|]. do 6 eexists. split; [reflexivity|].
    apply clifford_2_qubit_circuit_form_0_3; auto.
  - right. split; [auto|]. do 8 eexists. split; [reflexivity|].
    repeat split; try lia. apply clifford_2_qubit_circuit_form_1_2; auto.
  - right. split; [auto|]. do 8 eexists. split; [reflexivity|].
    repeat split; try lia. apply clifford_2_qubit_circuit_form_1_2; auto.
  - left. split; [auto|]. do 6 eexists. split; [reflexivity|].
    apply clifford_2_qubit_circuit_form_0_3; auto.
Qed.

Lemma clifford_2_qubit_circuit_ok (num : Z) :
  0 <= num < NUM_CLIFFORD_2_QUBIT -> exists qc, clifford_2_qubit_circuit num = Ok qc.
Proof.
  intros Hnum.
  destruct (clifford_2_qubit_circuit_cases Hnum)
    as (form & ds & _ & [(_ & H)|(_ & H)]).
  - destruct H as (? & ? & ? & ? & ? & ? & _ & H). eauto.
  - destruct H as (? & ? & ? & ? & ? & ? & ? & ? & _ & _ & _ & H). eauto.
Qed.

(** C6. For a 2-qubit index of the range, the circuit is the two Hadamard
    layers and the two S-type layers, then the CNOT pattern of the form
    (none; cx(0,1); cx(0,1), cx(1,0); cx(0,1), cx(1,0), cx(0,1)), then for
    the forms 1 and 2 only the correction layer (V for the digit 1 on
    either qubit, W for [k0 = 2] on qubit 0, V twice for [k1 = 2] on qubit
    1), then the two Pauli layers. *)
Theorem clifford_2_qubit_circuit_spec (num : Z) :
  0 <= num < NUM_CLIFFORD_2_QUBIT ->
  exists form ds,
    _unpack_num_multi_sigs num CLIFFORD_2_QUBIT_SIGS = Ok (Some (form :: ds)) /\
    (((form = 0 \/ form = 3) /\
      exists i0 i1 j0 j1 p0 p1,
        ds = [i0; i1; j0; j1; p0; p1] /\
        clifford_2_qubit_circuit num =
        Ok (circuit 2 (hadamard_layer i0 0 ++ hadamard_layer i1 1
                       ++ s_type_layer j0 0 ++ s_type_layer j1 1
                       ++ entangling_layer form
                       ++ pauli_layer p0 0 ++ pauli_layer p1 1)))
     \/
     ((form = 1 \/ form = 2) /\
      exists i0 i1 j0 j1 k0 k1 p0 p1,
        ds = [i0; i1; j0; j1; k0; k1; p0; p1] /\
        0 <= k0 < 3 /\ 0 <= k1 < 3 /\
        clifford_2_qubit_circuit num =
        Ok (circuit 2 (hadamard_layer i0 0 ++ hadamard_layer i1 1
                       ++ s_type_layer j0 0 ++ s_type_layer j1 1
                       ++ entangling_layer form
                       ++ correction_0 k0 ++ correction_1 k1
                       ++ pauli_layer p0 0 ++ pauli_layer p1 1)))) /\
    entangling_layer 0 = [] /\
    entangling_layer 1 = [cnot 0 1] /\
    entangling_layer 2 = [cnot 0 1; cnot 1 0] /\
    entangling_layer 3 = [cnot 0 1; cnot 1 0; cnot 0 1] /\
    correction_0 1 = [instr VGate [0]] /\
    correction_0 2 = [instr WGate [0]] /\
    correction_1 1 = [instr VGate [1]] /\
    correction_1 2 = [instr VGate [1]; instr VGate [1]].
Proof.
  intros Hnum.
  destruct (clifford_2_qubit_circuit_cases Hnum) as (form & ds & Hres & Hcases).
  exists form, ds. repeat split; assumption.
Qed.

Lemma clifford_2_qubit_circuit_spec_witness :
  0 <= 7000 < NUM_CLIFFORD_2_QUBIT /\
  exists form ds,
    _unpack_num_multi_sigs 7000 CLIFFORD_2_QUBIT_SIGS = Ok (Some (form :: ds)) /\
    (form = 0 \/ form = 3 \/ form = 1 \/ form = 2).
Proof.
  assert (Hnum : 0 <= 7000 < NUM_CLIFFORD_2_QUBIT)
    by (unfold NUM_CLIFFORD_2_QUBIT; lia).
  split; [exact Hnum|].
  destruct (@clifford_2_qubit_circuit_spec 7000 Hnum)
    as (form & ds & Hres & [(Hform & _)|(Hform & _)] & _);
    exists form, ds; (split; [exact Hres | tauto]).
Defined.

(** ** Indices out of the range *)

Lemma clifford_1_qubit_circuit_wraps (num : Z) :
  clifford_1_qubit_circuit num =
  clifford_1_qubit_circuit (num mod NUM_CLIFFORD_1_QUBIT).
Proof.
  unfold clifford_1_qubit_circuit.
  now rewrite (@unpack_num_wraps CLIFFORD_1_QUBIT_SIG) by (repeat constructor).
Qed.

Lemma clifford_2_qubit_circuit_above (num : Z) :
  NUM_CLIFFORD_2_QUBIT <= num -> clifford_2_qubit_circuit num = Raise TypeError.
Proof.
  intros Hnum. unfold clifford_2_qubit_circuit, _unpack_num_multi_sigs.
  rewrite multi_sigs_loop_none; [reflexivity | | exact Hnum].
  exact clifford_2_qubit_sigs_positive.
Qed.

(** C4, as the program has it.  At or above the sum of the spans
    [_unpack_num_multi_sigs] raises nothing and returns [None], on which
    [clifford_2_qubit_circuit] raises [TypeError]; [_unpack_num] checks no
    range, its digits are those of the index modulo the span, so that
    [clifford_1_qubit_circuit] returns for any index the circuit of that
    index modulo 24. *)
Theorem out_of_range_index_unchecked :
  (forall sigs num,
      Forall positive_radices sigs -> total_span sigs <= num ->
      _unpack_num_multi_sigs num sigs = Ok None) /\
  (forall num,
      NUM_CLIFFORD_2_QUBIT <= num ->
      clifford_2_qubit_circuit num = Raise TypeError) /\
  (forall sig num,
      positive_radices sig ->
      exists ds, _unpack_num num sig = Ok ds /\
                 _unpack_num (num mod sig_size sig) sig = Ok ds) /\
  (forall num,
      exists qc, clifford_1_qubit_circuit num = Ok qc /\
                 clifford_1_qubit_circuit (num mod NUM_CLIFFORD_1_QUBIT) = Ok qc).
Proof.
  repeat split.
  - intros sigs num Hsigs Hnum. now apply multi_sigs_loop_none.
  - apply clifford_2_qubit_circuit_above.
  - intros sig num Hsig.
    destruct (unpack_num_total Hsig num) as (ds & Hds & _).
    exists ds. split; [exact Hds|]. now rewrite <- unpack_num_wraps.
  - intros num. rewrite <- clifford_1_qubit_circuit_wraps.
    rewrite clifford_1_qubit_circuit_layers. eauto.
Qed.

(** The index 24 of the 1-qubit path is not rejected: it gets the circuit of
    the index 0; and 11520, the sum of the 2-qubit spans, makes
    [_unpack_num_multi_sigs] return [None] without an exception. *)
Lemma index_24_wraps_silently :
  NUM_CLIFFORD_1_QUBIT <= 24 /\
  _unpack_num 24 CLIFFORD_1_QUBIT_SIG = _unpack_num 0 CLIFFORD_1_QUBIT_SIG /\
  clifford_1_qubit_circuit 24 = clifford_1_qubit_circuit 0 /\
  (forall e, clifford_1_qubit_circuit 24 <> Raise e) /\
  total_span CLIFFORD_2_QUBIT_SIGS <= 11520 /\
  (forall e, _unpack_num_multi_sigs 11520 CLIFFORD_2_QUBIT_SIGS <> Raise e).
Proof.
  repeat split; try discriminate.
Qed.

(** ** The uniform samplers *)

Lemma map_result_length {A B} (f : A -> result B) (l : list A) (bs : list B) :
  map_result f l = Ok bs -> length bs = length l.
Proof.
  revert bs; induction l as [|a l IH]; intros bs H; simpl in H.
  - now inversion H.
  - bind_inv H. bind_inv H. inversion H; subst. simpl. f_equal. now apply IH.
Qed.

Lemma map_result_ok {A B} (f : A -> result B) (l : list A) :
  Forall (fun a => exists b, f a = Ok b) l ->
  exists bs, map_result f l = Ok bs.
Proof.
  induction 1 as [|a l (b & Hb) _ (bs & Hbs)]; simpl.
  - eauto.
  - rewrite Hb, Hbs. simpl. eauto.
Qed.

Section UniformSamplers.

Context {N : Numerics} {Q : Qiskit}.

Lemma random_clifford_loop_length (num_qubits : Z) (size : nat) (rng : rng_arg) :
  length (random_clifford_loop num_qubits size rng) = size.
Proof.
  revert rng; induction size as [|size IH]; intros rng; simpl.
  - reflexivity.
  - destruct (random_clifford num_qubits rng) as [c rng']. simpl. now rewrite IH.
Qed.

(** [random_clifford_circuits] returns [size] circuits, whatever the
    number of qubits. *)
Lemma random_clifford_circuits_length (num_qubits : Z) (size : nat) (rng : rng_arg) :
  integers_size_in_range ->
  exists qcs,
    random_clifford_circuits num_qubits size rng = Ok qcs /\ length qcs = size.
Proof.
  intros Hint. unfold random_clifford_circuits.
  destruct (2 <? num_qubits).
  - eexists. split; [reflexivity | apply random_clifford_loop_length].
  - destruct (num_qubits =? 1).
    + destruct (Hint 24 size (resolve_rng rng)) as (Hlen & Hall); [lia|].
      destruct (@map_result_ok _ _ clifford_1_qubit_circuit
                  (fst (integers_size 24 size (resolve_rng rng)))) as (qcs & Hqcs).
      { eapply Forall_impl; [|exact Hall]. intros num _.
        rewrite clifford_1_qubit_circuit_layers. eauto. }
      exists qcs. split; [exact Hqcs|].
      rewrite (map_result_length _ _ Hqcs). exact Hlen.
    + destruct (Hint 11520 size (resolve_rng rng)) as (Hlen & Hall); [lia|].
      destruct (@map_result_ok _ _ clifford_2_qubit_circuit
                  (fst (integers_size 11520 size (resolve_rng rng)))) as (qcs & Hqcs).
      { eapply Forall_impl; [|exact Hall]. intros num Hnum.
        now apply clifford_2_qubit_circuit_ok. }
      exists qcs. split; [exact Hqcs|].
      rewrite (map_result_length _ _ Hqcs). exact Hlen.
Qed.

(** [random_cliffords] returns [size] elements for one and for two
    qubits. *)
Lemma random_cliffords_length (num_qubits : Z) (size : nat) (rng : rng_arg) :
  integers_size_in_range ->
  num_qubits <= 2 ->
  exists l,
    random_cliffords num_qubits size rng = Ok (ListOfCliffords l) /\
    length l = size.
Proof.
  intros Hint Hle. unfold random_cliffords.
  destruct (Z.ltb_spec 2 num_qubits); [lia|].
  destruct (num_qubits =? 1).
  - destruct (Hint 24 size (resolve_rng rng)) as (Hlen & Hall); [lia|].
    destruct (@map_result_ok _ _
                (fun i => c <- clifford_1_qubit_circuit i ;; Ok (Clifford_of c))
                (fst (integers_size 24 size (resolve_rng rng)))) as (l & Hl).
    { eapply Forall_impl; [|exact Hall]. intros num _.
      rewrite clifford_1_qubit_circuit_layers. simpl. eauto. }
    exists l. rewrite Hl. split; [reflexivity|].
    rewrite (map_result_length _ _ Hl). exact Hlen.
  - destruct (Hint 11520 size (resolve_rng rng)) as (Hlen & Hall); [lia|].
    destruct (@map_result_ok _ _
                (fun i => c <- clifford_2_qubit_circuit i ;; Ok (Clifford_of c))
                (fst (integers_size 11520 size (resolve_rng rng)))) as (l & Hl).
    { eapply Forall_impl; [|exact Hall]. intros num Hnum.
      destruct (clifford_2_qubit_circuit_ok Hnum) as (qc & ->). simpl. eauto. }
    exists l. rewrite Hl. split; [reflexivity|].
    rewrite (map_result_length _ _ Hl). exact Hlen.
Qed.

(** C5, where the program departs from it.  For three qubits and a size of
    five, [random_cliffords] returns the single element of one call of the
    external sampler and no list, while [random_clifford_circuits] returns
    five circuits. *)
Theorem random_cliffords_above_two_qubits (rng : rng_arg) :
  random_cliffords 3 5 rng = Ok (OneClifford (fst (random_clifford 3 rng))) /\
  (forall l, random_cliffords 3 5 rng <> Ok (ListOfCliffords l)) /\
  (exists qcs, random_clifford_circuits 3 5 rng = Ok qcs /\ length qcs = 5%nat).
Proof.
  repeat split.
  - discriminate.
  - eexists. split; [reflexivity | apply random_clifford_loop_length].
Qed.

End UniformSamplers.

(** ** Lists and loops *)

Lemma pop_in_range {A} (l : list A) (i : Z) :
  0 <= i < Z.of_nat (length l) ->
  exists a rest,
    pop l i = Ok (a, rest) /\ In a l /\ incl rest l /\ length l = S (length rest).
Proof.
  intros Hi. unfold pop.
  destruct (Z.ltb_spec i 0); [lia|].
  destruct (Z.leb_spec 0 i); [|lia].
  destruct (Z.ltb_spec i (Z.of_nat (length l))); [|lia]. simpl.
  destruct (nth_error l (Z.to_nat i)) as [a|] eqn:Hnth.
  - exists a, (firstn (Z.to_nat i) l ++ skipn (S (Z.to_nat i)) l).
    split; [reflexivity|]. split; [eapply nth_error_In; eauto|]. split.
    + intros e He. apply in_app_or in He as [He|He].
      * rewrite <- (firstn_skipn (Z.to_nat i) l). apply in_or_app. now left.
      * rewrite <- (firstn_skipn (S (Z.to_nat i)) l). apply in_or_app. now right.
    + rewrite length_app, length_firstn, length_skipn. lia.
  - apply nth_error_None in Hnth. lia.
Qed.

Lemma ForallOrdPairs_snoc {A} (R : A -> A -> Prop) (l : list A) (a : A) :
  ForallOrdPairs R l -> Forall (fun b => R b a) l -> ForallOrdPairs R (l ++ [a]).
Proof.
  induction 1 as [|b l Hb Hl IH]; intros Hall; simpl.
  - repeat constructor.
  - inversion Hall; subst. constructor.
    + apply Forall_app. split; [exact Hb | now constructor].
    + now apply IH.
Qed.

Lemma map_result_Forall2 {A B} (f : A -> result B) (l : list A) (bs : list B) :
  map_result f l = Ok bs -> Forall2 (fun a b => f a = Ok b) l bs.
Proof.
  revert bs; induction l as [|a l IH]; intros bs H; simpl in H.
  - inversion H. constructor.
  - apply bind_ok in H as (b & Hb & H). apply bind_ok in H as (bs' & Hbs' & H).
    inversion H; subst. constructor; auto.
Qed.

(** ** Edges *)

Lemma not_in_spec (q : Z) (e : edge) :
  not_in q e = true <-> q <> fst e /\ q <> snd e.
Proof.
  unfold not_in. rewrite negb_true_iff, orb_false_iff, !Z.eqb_neq. tauto.
Qed.

Lemma touches_spec (q : Z) (e : edge) :
  touches q e = true <-> q = fst e \/ q = snd e.
Proof.
  unfold touches. now rewrite orb_true_iff, !Z.eqb_eq.
Qed.

(** [where_first] returns a position of the list that holds the qubit. *)
Lemma where_first_nth (q : Z) (qubits : list Z) :
  forall pos i,
    where_first q qubits pos = Ok i ->
    pos <= i < pos + Z.of_nat (length qubits) /\
    nth_error qubits (Z.to_nat (i - pos)) = Some q.
Proof.
  induction qubits as [|q' rest IH]; intros pos i H; simpl in H.
  - discriminate.
  - destruct (Z.eqb_spec q q') as [->|Hneq].
    + inversion H; subst. rewrite Z.sub_diag. simpl. split; [lia | reflexivity].
    + apply IH in H as (Hrange & Hnth). split; [simpl length; lia|].
      replace (Z.to_nat (i - pos)) with (S (Z.to_nat (i - (pos + 1)))) by lia.
      exact Hnth.
Qed.

Lemma where_first_inj (a b : Z) (qubits : list Z) (i : Z) :
  where_first a qubits 0 = Ok i -> where_first b qubits 0 = Ok i -> a = b.
Proof.
  intros Ha Hb.
  apply where_first_nth in Ha as (_ & Ha), Hb as (_ & Hb). congruence.
Qed.

Lemma logical_edge_range (qubits : list Z) (e e' : edge) :
  logical_edge qubits e = Ok e' ->
  0 <= fst e' < Z.of_nat (length qubits) /\ 0 <= snd e' < Z.of_nat (length qubits).
Proof.
  unfold logical_edge. intros H.
  apply bind_ok in H as (a & Ha & H). apply bind_ok in H as (b & Hb & H).
  inversion H; subst; simpl.
  apply where_first_nth in Ha as (Ha & _), Hb as (Hb & _). lia.
Qed.

Lemma logical_edge_share (qubits : list Z) (e1 e2 e1' e2' : edge) :
  logical_edge qubits e1 = Ok e1' ->
  logical_edge qubits e2 = Ok e2' ->
  share_vertex e1' e2' -> share_vertex e1 e2.
Proof.
  unfold logical_edge. intros H1 H2.
  apply bind_ok in H1 as (a1 & Ha1 & H1). apply bind_ok in H1 as (b1 & Hb1 & H1).
  apply bind_ok in H2 as (a2 & Ha2 & H2). apply bind_ok in H2 as (b2 & Hb2 & H2).
  inversion H1; inversion H2; subst; clear H1 H2.
  unfold share_vertex; simpl.
  intros [H|[H|[H|H]]]; subst;
    [left | right; left | right; right; left | right; right; right];
    eapply where_first_inj; eauto.
Qed.

Lemma logical_edges_matching (qubits : list Z) (edges edges' : list edge) :
  map_result (logical_edge qubits) edges = Ok edges' ->
  vertex_disjoint edges -> vertex_disjoint edges'.
Proof.
  intros H. apply map_result_Forall2 in H. unfold vertex_disjoint.
  induction H as [|e e' edges edges' He Hall IH]; intros Hdis.
  - constructor.
  - inversion Hdis as [|? ? Hhd Htl]; subst. constructor; [|auto].
    clear IH Htl Hdis. induction Hall as [|f f' edges edges' Hf _ IH'].
    + constructor.
    + inversion Hhd; subst. constructor; [|auto].
      intros Hshare. eapply logical_edge_share in Hshare; eauto.
Qed.

Lemma logical_edges_range (qubits : list Z) (edges edges' : list edge) :
  map_result (logical_edge qubits) edges = Ok edges' ->
  Forall (fun e => 0 <= fst e < Z.of_nat (length qubits) /\
                   0 <= snd e < Z.of_nat (length qubits)) edges'.
Proof.
  intros H. apply map_result_Forall2 in H.
  induction H as [|e e' edges edges' He _ IH]; constructor; auto.
  eapply logical_edge_range; eauto.
Qed.

(** ** Sorted arrays *)

Lemma arange_sorted (n : nat) : StronglySorted Z.lt (arange n).
Proof.
  unfold arange. generalize 0%nat as start.
  induction n as [|n IH]; intros start; simpl.
  - constructor.
  - constructor; [apply IH|].
    apply Forall_forall. intros v Hv.
    apply in_map_iff in Hv as (k & <- & Hk). apply in_seq in Hk. lia.
Qed.

Lemma arange_In (n : nat) (q : Z) : In q (arange n) <-> 0 <= q < Z.of_nat n.
Proof.
  unfold arange. rewrite in_map_iff. split.
  - intros (k & <- & Hk). apply in_seq in Hk. lia.
  - intros Hq. exists (Z.to_nat q). split; [lia|]. apply in_seq. lia.
Qed.

(** [np.unique] leaves an increasing array as it is. *)
Lemma unique_sorted (l : list Z) : StronglySorted Z.lt l -> unique l = l.
Proof.
  induction 1 as [|v l Hl IH Hv]; simpl.
  - reflexivity.
  - rewrite IH. destruct l as [|w l']; [reflexivity|]. simpl.
    inversion Hv; subst. destruct (Z.ltb_spec v w); [reflexivity | lia].
Qed.

Lemma insert_unique_In (v w : Z) (l : list Z) :
  In w (insert_unique v l) <-> w = v \/ In w l.
Proof.
  induction l as [|u l IH]; simpl.
  - intuition.
  - destruct (Z.ltb_spec v u); [simpl; intuition|].
    destruct (Z.eqb_spec v u) as [->|Hneq]; simpl; intuition.
Qed.

Lemma unique_In (w : Z) (l : list Z) : In w (unique l) <-> In w l.
Proof.
  induction l as [|v l IH]; simpl; [tauto|].
  rewrite insert_unique_In, IH. intuition.
Qed.

Lemma existsb_eqb_In (v : Z) (l : list Z) :
  existsb (Z.eqb v) l = true <-> In v l.
Proof.
  rewrite existsb_exists. split.
  - intros (w & Hw & Heq). apply Z.eqb_eq in Heq. now subst.
  - intros Hv. exists v. split; [exact Hv | apply Z.eqb_refl].
Qed.

(** On an increasing array, [np.setdiff1d] with the two endpoints of an edge
    filters out the qubits the edge touches. *)
Lemma setdiff1d_edge (put : list Z) (e : edge) :
  StronglySorted Z.lt put ->
  setdiff1d put [fst e; snd e] = filter (fun v => negb (touches v e)) put.
Proof.
  intros Hsorted. unfold setdiff1d. rewrite (unique_sorted Hsorted).
  apply filter_ext. intros v. f_equal.
  apply eq_true_iff_eq. rewrite existsb_eqb_In, unique_In, touches_spec.
  simpl. intuition.
Qed.

Lemma filter_sorted (f : Z -> bool) (l : list Z) :
  StronglySorted Z.lt l -> StronglySorted Z.lt (filter f l).
Proof.
  induction 1 as [|v l Hl IH Hv]; simpl.
  - constructor.
  - destruct (f v); [|exact IH]. constructor; [exact IH|].
    apply Forall_forall. intros w Hw. apply filter_In in Hw as [Hw _].
    rewrite Forall_forall in Hv. auto.
Qed.

Lemma sorted_NoDup (l : list Z) : StronglySorted Z.lt l -> NoDup l.
Proof.
  induction 1 as [|v l Hl IH Hv]; constructor; [|exact IH].
  intros Hin. rewrite Forall_forall in Hv. specialize (Hv v Hin). lia.
Qed.

Lemma filter_filter {A} (f g : A -> bool) (l : list A) :
  filter g (filter f l) = filter (fun a => f a && g a) l.
Proof.
  induction l as [|a l IH]; simpl; [reflexivity|].
  destruct (f a); simpl; [destruct (g a)|]; now rewrite IH.
Qed.

Lemma filter_none {A} (f : A -> bool) (l : list A) :
  (forall a, In a l -> f a = false) -> filter f l = [].
Proof.
  induction l as [|a l IH]; intros H; simpl; [reflexivity|].
  rewrite (H a) by now left. apply IH. intros b Hb. apply H. now right.
Qed.

(** In a matching a qubit is an endpoint of at most one edge. *)
Lemma matching_touches_once (q : Z) (edges : list edge) :
  vertex_disjoint edges -> (length (filter (touches q) edges) <= 1)%nat.
Proof.
  induction 1 as [|e edges He Hdis IH]; simpl; [lia|].
  destruct (touches q e) eqn:Hq; [|exact IH]. simpl.
  rewrite filter_none; [simpl; lia|].
  intros f Hf. destruct (touches q f) eqn:Hqf; [|reflexivity]. exfalso.
  rewrite Forall_forall in He. apply (He f Hf).
  apply touches_spec in Hq, Hqf. unfold share_vertex.
  destruct Hq, Hqf; subst; intuition congruence.
Qed.

Lemma existsb_filter {A} (f : A -> bool) (l : list A) :
  existsb f l = negb (Nat.eqb (length (filter f l)) 0).
Proof.
  induction l as [|a l IH]; simpl; [reflexivity|].
  destruct (f a); simpl; [reflexivity | exact IH].
Qed.

(** The qubits of an increasing array that no edge of a matching touches,
    with the matching, cover every qubit of the array once. *)
Lemma matching_covers_once (n : nat) (cnots : list edge) :
  vertex_disjoint cnots ->
  covered_once n cnots
    (filter (fun v => negb (existsb (touches v) cnots)) (arange n)).
Proof.
  intros Hdis q Hq.
  pose proof (matching_touches_once q Hdis) as Hle.
  pose proof (sorted_NoDup (filter_sorted (fun v => negb (existsb (touches v) cnots))
                                          (arange_sorted n))) as Hnodup.
  destruct (length (filter (touches q) cnots)) as [|[|k]] eqn:Hlen; [| |lia].
  - right. split; [reflexivity|].
    apply (proj1 (NoDup_count_occ' Z.eq_dec _) Hnodup).
    apply filter_In. split; [now apply arange_In|].
    now rewrite existsb_filter, Hlen.
  - left. split; [reflexivity|].
    apply count_occ_not_In. intros Hin. apply filter_In in Hin as [_ Hin].
    rewrite existsb_filter, Hlen in Hin. discriminate.
Qed.

(** The layers of a 1-qubit Clifford hold no CNOT and act on its qubit. *)
Lemma one_qubit_layers_single (num q : Z) :
  Forall (fun ins => is_cx ins = false /\ qargs ins = [q]) (one_qubit_layers num q).
Proof.
  unfold one_qubit_layers.
  rewrite hadamard_layer_if, s_type_layer_if, pauli_layer_if.
  repeat match goal with |- context [if ?b then _ else _] => destruct b end;
    repeat constructor.
Qed.

Lemma clifford_layers_single (singles nums : list Z) :
  Forall (fun ins => is_cx ins = false /\ length (qargs ins) = 1%nat)
         (clifford_layers singles nums).
Proof.
  unfold clifford_layers.
  revert nums; induction singles as [|q singles IH]; intros [|num nums]; simpl;
    try constructor.
  apply Forall_app. split; [|apply IH].
  eapply Forall_impl; [|apply one_qubit_layers_single].
  intros ins [Hcx Hq]. rewrite Hq. auto.
Qed.

Section EdgeGrab.

Context {N : Numerics} {Q : Qiskit}.
Hypothesis integers_range : integers_in_range.

(** The invariant of the while loop: both lists are within the coupling
    map, the selected edges are a matching, and no remaining edge shares
    an endpoint with a selected one. *)
Lemma grab_edges_matching (coupling_map : list edge) (fuel : nat) :
  forall all_edges selected_edges rng,
    (length all_edges <= fuel)%nat ->
    incl all_edges coupling_map ->
    incl selected_edges coupling_map ->
    vertex_disjoint selected_edges ->
    (forall s e, In s selected_edges -> In e all_edges -> ~ share_vertex s e) ->
    exists selected_edges' rng',
      grab_edges fuel all_edges selected_edges rng = Ok (selected_edges', rng') /\
      incl selected_edges' coupling_map /\
      vertex_disjoint selected_edges'.
Proof.
  induction fuel as [|fuel IH]; intros all_edges sel rng Hfuel Hall Hsel Hdis Hsep.
  - destruct all_edges; [|simpl in Hfuel; lia]. simpl. eauto.
  - destruct all_edges as [|e0 rest0]; [simpl; eauto|].
    set (all_edges := e0 :: rest0) in *.
    cbn [grab_edges]. fold all_edges.
    pose proof integers_range as Hk. unfold integers_in_range in Hk.
    specialize (Hk (Z.of_nat (length all_edges)) rng).
    destruct (integers (Z.of_nat (length all_edges)) rng) as [k rng1].
    simpl in Hk.
    destruct (@pop_in_range _ all_edges k) as (r & rest & Hpop & Hr & Hrest & Hlen).
    { apply Hk. unfold all_edges. simpl. lia. }
    rewrite Hpop. cbn [bind].
    apply IH.
    + pose proof (filter_length_le
                    (fun edge => not_in (fst r) edge && not_in (snd r) edge) rest).
      lia.
    + intros e He. apply filter_In in He as [He _]. auto.
    + intros e He. apply in_app_or in He as [He|[<-|[]]]; auto.
    + apply ForallOrdPairs_snoc; [exact Hdis|].
      apply Forall_forall. intros s Hs. now apply Hsep.
    + intros s e Hs He. apply filter_In in He as [He Hf].
      apply in_app_or in Hs as [Hs|[<-|[]]].
      * apply Hsep; auto.
      * apply andb_true_iff in Hf as [H0 H1].
        apply not_in_spec in H0, H1. unfold share_vertex. intuition congruence.
Qed.

(** The CNOT loop appends the CNOTs of some of the edges and takes the
    qubits they touch out of [put_1_qubit_clifford]. *)
Lemma place_cnots_spec (prob : pynum) (n : nat) (edges : list edge) :
  forall d put rng qc' put' rng',
    StronglySorted Z.lt put ->
    vertex_disjoint edges ->
    place_cnots edges prob (circuit n d) put rng = Ok (qc', put', rng') ->
    exists cnots,
      qc' = circuit n (d ++ map cnot_of cnots) /\
      incl cnots edges /\
      Forall (fun e => fst e <> snd e) cnots /\
      vertex_disjoint cnots /\
      put' = filter (fun v => negb (existsb (touches v) cnots)) put.
Proof.
  induction edges as [|e edges IH]; intros d put rng qc' put' rng' Hput Hdis H.
  - simpl in H. inversion H; subst. exists []. simpl.
    rewrite app_nil_r, filter_true.
    repeat split; [apply incl_refl | constructor | constructor].
  - cbn [place_cnots] in H. destruct (random rng) as [r rng1].
    inversion Hdis as [|? ? Hhd Htl]; subst.
    destruct (lt_prob r prob).
    + unfold QC.cx in H. destruct (Z.eqb_spec (fst e) (snd e)); [discriminate|].
      cbn [bind] in H. unfold QC._append in H. cbn [data num_qubits] in H.
      rewrite (setdiff1d_edge e Hput) in H.
      apply IH in H as (cnots & -> & Hincl & Hneq & Hcnots & ->);
        [|now apply filter_sorted | exact Htl].
      exists (e :: cnots). split; [|split; [|split; [|split]]].
      * simpl. now rewrite <- app_assoc.
      * intros f [<-|Hf]; [now left | right; auto].
      * now constructor.
      * constructor; [|exact Hcnots].
        rewrite Forall_forall in *. auto.
      * rewrite filter_filter. apply filter_ext. intros v. simpl.
        now rewrite negb_orb.
    + apply IH in H as (cnots & -> & Hincl & Hneq & Hcnots & ->); auto.
      exists cnots. repeat split; auto. intros f Hf. right. auto.
Qed.

(** The last loop appends the layers of one Clifford of [[0, 24)] for
    each qubit of [put_1_qubit_clifford]; it raises nothing. *)
Lemma place_cliffords_spec (n : nat) (put : list Z) :
  forall d rng,
    exists nums rng',
      place_cliffords put (circuit n d) rng =
      Ok (circuit n (d ++ clifford_layers put nums), rng') /\
      length nums = length put /\
      Forall (fun num => 0 <= num < NUM_CLIFFORD_1_QUBIT) nums.
Proof.
  induction put as [|q put IH]; intros d rng.
  - exists [], rng. simpl. unfold clifford_layers; simpl.
    rewrite app_nil_r. repeat split; constructor.
  - cbn [place_cliffords].
    pose proof integers_range as Hk. unfold integers_in_range in Hk.
    specialize (Hk 24 rng).
    destruct (integers 24 rng) as [num rng1]. simpl in Hk.
    rewrite unpack_1_qubit_index. cbn [bind unpack_ijp].
    rewrite append_1_qubit_gates_layers.
    destruct (IH (d ++ hadamard_layer (num mod 2) q
                    ++ s_type_layer (num / 2 mod 3) q
                    ++ pauli_layer (num / 2 / 3 mod 4) q) rng1)
      as (nums & rng' & Hrun & Hlen & Hnums).
    exists (num :: nums), rng'. rewrite Hrun. split; [|split].
    + unfold clifford_layers; simpl. unfold one_qubit_layers.
      now rewrite <- !app_assoc.
    + simpl. now rewrite Hlen.
    + constructor; [apply Hk; lia | exact Hnums].
Qed.

Lemma edgegrab_circuit_spec (qubits : list Z) (coupling_map : list edge)
      (density : float) (rng rng' : Generator) (l : edgegrab_locals) :
  edgegrab_circuit qubits coupling_map density rng = Ok (l, rng') ->
  turn_spec qubits coupling_map l.
Proof.
  unfold edgegrab_circuit. intros H.
  destruct (@grab_edges_matching coupling_map (length coupling_map)
              coupling_map [] rng)
    as (sel & rng1 & Hgrab & Hincl & Hdis);
    [lia | apply incl_refl | intros e [] | constructor | intros s e [] |].
  rewrite Hgrab in H. cbn [bind] in H.
  destruct (if Z.of_nat (length sel) =? 0
            then (PyInt 0, [no_connectivity_warning])
            else _) as [prob warned] in H.
  apply bind_ok in H as (logical & Hlogical & H).
  apply bind_ok in H as ([[qc1 put1] rng2] & Hcnots & H).
  unfold QC.new in Hcnots.
  apply place_cnots_spec in Hcnots as (cnots & -> & Hcin & Hneq & Hcdis & ->);
    [|apply arange_sorted | eapply logical_edges_matching; eauto].
  destruct (place_cliffords_spec (length qubits)
              (filter (fun v => negb (existsb (touches v) cnots))
                      (arange (length qubits)))
              ([] ++ map cnot_of cnots) rng2)
    as (nums & rng3 & Hrun & Hlen & Hnums).
  rewrite Hrun in H. cbn [bind] in H. inversion H; subst; clear H.
  unfold turn_spec, turn_matching, turn_covered; cbn.
  repeat split; auto.
  exists cnots, nums. repeat split; auto.
  - pose proof (logical_edges_range _ _ Hlogical) as Hrange.
    rewrite Forall_forall in *. intros e He.
    destruct (Hrange e (Hcin e He)) as (H0 & H1). auto.
  - now apply matching_covers_once.
Qed.

Lemma edgegrab_loop_spec (qubits : list Z) (coupling_map : list edge)
      (density : float) (size : nat) :
  forall rng rng' ls,
    edgegrab_loop size qubits coupling_map density rng = Ok (ls, rng') ->
    length ls = size /\ Forall (turn_spec qubits coupling_map) ls.
Proof.
  induction size as [|size IH]; intros rng rng' ls H; simpl in H.
  - inversion H; subst. split; [reflexivity | constructor].
  - apply bind_ok in H as ([l rng1] & Hl & H).
    apply bind_ok in H as ([ls' rng2] & Hls & H).
    inversion H; subst. apply IH in Hls as (Hlen & Hall).
    split; [simpl; now rewrite Hlen|].
    constructor; [eapply edgegrab_circuit_spec; eauto | exact Hall].
Qed.

Lemma where_first_total (q : Z) (qubits : list Z) :
  In q qubits -> forall pos, exists i, where_first q qubits pos = Ok i.
Proof.
  induction qubits as [|q' rest IH]; intros Hin pos; simpl; [contradiction|].
  destruct (Z.eqb_spec q q') as [Heq|Hneq]; [eauto|].
  destruct Hin as [Heq|Hin]; [congruence | now apply IH].
Qed.

Lemma place_cnots_total (prob : pynum) (edges : list edge) :
  Forall (fun e => fst e <> snd e) edges ->
  forall qc put rng, exists r, place_cnots edges prob qc put rng = Ok r.
Proof.
  induction 1 as [|e edges He _ IH]; intros qc put rng; simpl; [eauto|].
  destruct (random rng) as [r rng1]. destruct (lt_prob r prob); [|apply IH].
  unfold QC.cx. destruct (Z.eqb_spec (fst e) (snd e)); [contradiction|].
  cbn [bind]. apply IH.
Qed.

(** A coupling map whose edges join two different qubits of [qubits] makes
    every turn return normally. *)
Lemma edgegrab_loop_total (qubits : list Z) (coupling_map : list edge)
      (density : float) (size : nat) :
  Forall (fun e => In (fst e) qubits /\ In (snd e) qubits /\ fst e <> snd e)
         coupling_map ->
  forall rng, exists ls rng',
      edgegrab_loop size qubits coupling_map density rng = Ok (ls, rng').
Proof.
  intros Hcm. induction size as [|size IH]; intros rng; simpl; [eauto|].
  assert (Hturn : exists l rng1,
             edgegrab_circuit qubits coupling_map density rng = Ok (l, rng1)).
  { unfold edgegrab_circuit.
    destruct (@grab_edges_matching coupling_map (length coupling_map)
                coupling_map [] rng)
      as (sel & rng1 & Hgrab & Hincl & _);
      [lia | apply incl_refl | intros e [] | constructor | intros s e [] |].
    rewrite Hgrab. cbn [bind].
    destruct (if Z.of_nat (length sel) =? 0
              then (PyInt 0, [no_connectivity_warning])
              else _) as [prob warned].
    assert (Hsel : Forall (fun e => In (fst e) qubits /\ In (snd e) qubits /\
                                    fst e <> snd e) sel).
    { rewrite Forall_forall in *. auto. }
    destruct (@map_result_ok _ _ (logical_edge qubits) sel) as (logical & Hlogical).
    { eapply Forall_impl; [|exact Hsel]. intros e (H0 & H1 & _).
      unfold logical_edge.
      destruct (where_first_total _ _ H0 0) as (a & ->).
      destruct (where_first_total _ _ H1 0) as (b & ->). simpl. eauto. }
    rewrite Hlogical. cbn [bind].
    assert (Hneq : Forall (fun e => fst e <> snd e) logical).
    { apply map_result_Forall2 in Hlogical. clear Hgrab Hincl.
      induction Hlogical as [|e e' sel' logical' He _ IH']; constructor.
      - inversion Hsel as [|? ? (_ & _ & Hne) _]; subst.
        unfold logical_edge in He.
        bind_inv He. bind_inv He. inversion He; subst; simpl.
        intros Heq. apply Hne. subst. eapply where_first_inj; eauto.
      - apply IH'. now inversion Hsel. }
    destruct (place_cnots_total prob Hneq (QC.new (length qubits))
                                (arange (length qubits)) rng1)
      as ([[qc1 put1] rng2] & ->).
    cbn [bind]. destruct qc1 as [n1 d1].
    destruct (place_cliffords_spec n1 put1 d1 rng2) as (nums & rng3 & -> & _).
    cbn [bind]. eauto. }
  destruct Hturn as (l & rng1 & ->). cbn [bind].
  destruct (IH rng1) as (ls & rng2 & ->). cbn [bind]. eauto.
Qed.

Lemma edgegrab_circuits_from_loop (qubits : list Z) (coupling_map : list edge)
      (density : float) (size : nat) (rng : rng_arg) (qcs : list QuantumCircuit) :
  length qubits <> 1%nat ->
  random_edgegrab_clifford_circuits qubits coupling_map density size rng = Ok qcs ->
  exists ls rng',
    edgegrab_loop size qubits coupling_map density (resolve_rng rng) = Ok (ls, rng') /\
    qcs = map qc ls.
Proof.
  intros Hn H. unfold random_edgegrab_clifford_circuits in H.
  destruct (Z.eqb_spec (Z.of_nat (length qubits)) 1); [lia|].
  apply bind_ok in H as ([ls rng'] & Hls & H). inversion H; subst. eauto.
Qed.

(** With an empty coupling map a turn raises nothing. *)
Lemma edgegrab_circuit_empty (qubits : list Z) (density : float) (rng : Generator) :
  exists l rng',
    edgegrab_circuit qubits [] density rng = Ok (l, rng') /\
    degraded_turn qubits l.
Proof.
  unfold edgegrab_circuit. cbn [length grab_edges bind Z.of_nat Z.eqb].
  cbn [gt_one Z.ltb Z.compare map_result bind place_cnots]. unfold QC.new.
  destruct (place_cliffords_spec (length qubits) (arange (length qubits)) [] rng)
    as (nums & rng' & Hrun & Hlen & Hnums).
  rewrite Hrun. cbn [bind app].
  eexists. exists rng'. split; [reflexivity|].
  unfold degraded_turn; cbn. repeat split.
  - exists nums. repeat split; auto.
    rewrite Hlen. unfold arange. now rewrite length_map, length_seq.
  - apply clifford_layers_single.
Qed.

Lemma edgegrab_loop_empty (qubits : list Z) (density : float) (size : nat) :
  forall rng,
    exists ls rng',
      edgegrab_loop size qubits [] density rng = Ok (ls, rng') /\
      length ls = size /\
      Forall (degraded_turn qubits) ls.
Proof.
  induction size as [|size IH]; intros rng; simpl.
  - exists [], rng. repeat split; constructor.
  - destruct (edgegrab_circuit_empty qubits density rng) as (l & rng1 & Hl & Hturn).
    destruct (IH rng1) as (ls & rng2 & Hls & Hlen & Hall).
    rewrite Hl. cbn [bind]. rewrite Hls. cbn [bind].
    exists (l :: ls), rng2. split; [reflexivity|].
    split; [simpl; now rewrite Hlen | now constructor].
Qed.

(** C2. Whatever the random choices, the while loop ends with selected
    edges that are edges of the coupling map and share no endpoint with
    one another; so are the selected edges of every turn of the outer loop
    of a call of [random_edgegrab_clifford_circuits] that returns, the
    circuits returned being those of these turns. *)
Theorem edgegrab_matching_valid (qubits : list Z) (coupling_map : list edge)
        (density : float) (size : nat) (rng : rng_arg) :
  (forall g, exists selected_edges g',
      grab_edges (length coupling_map) coupling_map [] g = Ok (selected_edges, g') /\
      incl selected_edges coupling_map /\
      vertex_disjoint selected_edges) /\
  (forall qcs,
      length qubits <> 1%nat ->
      random_edgegrab_clifford_circuits qubits coupling_map density size rng = Ok qcs ->
      exists ls rng',
        edgegrab_loop size qubits coupling_map density (resolve_rng rng)
          = Ok (ls, rng') /\
        qcs = map qc ls /\ Forall (turn_matching coupling_map) ls).
Proof.
  split.
  - intros g. apply grab_edges_matching;
      [lia | apply incl_refl | intros e [] | constructor | intros s e []].
  - intros qcs Hn H.
    apply edgegrab_circuits_from_loop in H as (ls & rng' & Hls & ->); [|exact Hn].
    exists ls, rng'. split; [exact Hls|]. split; [reflexivity|].
    apply edgegrab_loop_spec in Hls as (_ & Hall).
    eapply Forall_impl; [|exact Hall]. intros l (Hl & _). exact Hl.
Qed.

(** C3. A call of [random_edgegrab_clifford_circuits] for two qubits or
    more that returns gives the [size] circuits of the turns of its outer
    loop.  In each of them the instructions are the CNOTs of some of the
    matched logical edges of the turn followed by the layers of one
    1-qubit Clifford of [[0, 24)] for each qubit that the turn left in
    [put_1_qubit_clifford]; and every logical qubit is an endpoint of
    exactly one of these CNOTs and gets no 1-qubit Clifford, or is on no
    CNOT and gets exactly one. *)
Theorem edgegrab_coverage (qubits : list Z) (coupling_map : list edge)
        (density : float) (size : nat) (rng : rng_arg)
        (qcs : list QuantumCircuit) :
  (2 <= length qubits)%nat ->
  random_edgegrab_clifford_circuits qubits coupling_map density size rng = Ok qcs ->
  length qcs = size /\
  exists ls rng',
    edgegrab_loop size qubits coupling_map density (resolve_rng rng)
      = Ok (ls, rng') /\
    qcs = map qc ls /\ Forall (turn_covered qubits) ls.
Proof.
  intros Hn H.
  apply edgegrab_circuits_from_loop in H as (ls & rng' & Hls & ->); [|lia].
  pose proof (edgegrab_loop_spec _ _ _ _ _ Hls) as (Hlen & Hall).
  split; [now rewrite length_map|].
  exists ls, rng'. split; [exact Hls|]. split; [reflexivity|].
  eapply Forall_impl; [|exact Hall]. intros l (_ & _ & Hl). exact Hl.
Qed.

(** C9. With an empty coupling map and two qubits or more, the outer loop
    of [random_edgegrab_clifford_circuits] makes its [size] turns without
    raising, and the call returns the circuits of these turns.  In each
    turn the no-connectivity warning is the one warning issued,
    [two_qubit_prob] stays the integer 0, no edge is selected, and the
    circuit is one 1-qubit Clifford of [[0, 24)] on every qubit: it has no
    CNOT and only instructions on a single qubit. *)
Theorem edgegrab_no_connectivity (qubits : list Z) (density : float)
        (size : nat) (rng : rng_arg) :
  (2 <= length qubits)%nat ->
  exists ls rng',
    edgegrab_loop size qubits [] density (resolve_rng rng) = Ok (ls, rng') /\
    random_edgegrab_clifford_circuits qubits [] density size rng = Ok (map qc ls) /\
    length ls = size /\
    Forall (degraded_turn qubits) ls.
Proof.
  intros Hn.
  destruct (edgegrab_loop_empty qubits density size (resolve_rng rng))
    as (ls & rng' & Hls & Hlen & Hall).
  exists ls, rng'. split; [exact Hls|]. split; [|split; assumption].
  unfold random_edgegrab_clifford_circuits.
  destruct (Z.eqb_spec (Z.of_nat (length qubits)) 1); [lia|].
  rewrite Hls. reflexivity.
Qed.

End EdgeGrab.

(** ** The target bit string *)

Lemma join_bits_cons (b : bool) (l : list bool) :
  String.concat EmptyString (map (fun phase : bool => if phase then "1" else "0") (b :: l))%string =
  String (bit_char b)
         (String.concat EmptyString (map (fun phase : bool => if phase then "1" else "0") l))%string.
Proof.
  destruct l as [|b' l]; destruct b; reflexivity.
Qed.

Lemma join_bits_length (l : list bool) :
  String.length
    (String.concat EmptyString (map (fun phase : bool => if phase then "1" else "0") l))%string
  = length l.
Proof.
  induction l as [|b l IH]; [reflexivity|].
  rewrite join_bits_cons. simpl. now rewrite IH.
Qed.

Lemma join_bits_get (l : list bool) :
  forall k, (k < length l)%nat ->
    String.get k
      (String.concat EmptyString (map (fun phase : bool => if phase then "1" else "0") l))%string
    = Some (bit_char (nth k l false)).
Proof.
  induction l as [|b l IH]; intros k Hk; [simpl in Hk; lia|].
  rewrite join_bits_cons. destruct k as [|k]; simpl; [reflexivity|].
  apply IH. simpl in Hk. lia.
Qed.

Section TargetBitstring.

Context {N : Numerics} {Q : Qiskit}.

(** C10. For a circuit on [n] qubits whose phase vector has [2n] entries,
    the target string has [n] characters, and its character [k] is '1'
    when the entry [2n - 1 - k] of the phase vector is true and '0' when
    it is false: the trailing [n] entries, reversed.  With the phase
    vectors that qiskit gives them, the 1-qubit circuit of a single X
    yields "1" and the empty 1-qubit circuit yields "0". *)
Theorem compute_target_bitstring_spec (c : QuantumCircuit) :
  length (table_phase (Clifford_of c)) = (2 * num_qubits c)%nat ->
  String.length (compute_target_bitstring c) = num_qubits c /\
  (forall k, (k < num_qubits c)%nat ->
     String.get k (compute_target_bitstring c) =
     Some (bit_char (nth (2 * num_qubits c - 1 - k)
                         (table_phase (Clifford_of c)) false))) /\
  (table_phase (Clifford_of (circuit 1 [instr XGate [0]])) = [false; true] ->
   compute_target_bitstring (circuit 1 [instr XGate [0]]) = "1"%string) /\
  (table_phase (Clifford_of (circuit 1 [])) = [false; false] ->
   compute_target_bitstring (circuit 1 []) = "0"%string).
Proof.
  intros Hlen.
  assert (Hrev : length (rev (skipn (num_qubits c)
                                    (table_phase (Clifford_of c))))
                 = num_qubits c)
    by (rewrite length_rev, length_skipn; lia).
  unfold compute_target_bitstring.
  split; [|split; [|split]].
  - now rewrite join_bits_length.
  - intros k Hk. rewrite join_bits_get by lia. f_equal. f_equal.
    rewrite rev_nth by (rewrite length_skipn; lia).
    rewrite length_skipn, nth_skipn. f_equal. lia.
  - intros Hphase. cbn [num_qubits]. rewrite Hphase. reflexivity.
  - intros Hphase. cbn [num_qubits]. rewrite Hphase. reflexivity.
Qed.

End TargetBitstring.

(** ** Examples on the instance of the collaborators *)

#[local] Existing Instance counter_numerics.
#[local] Existing Instance circuits_qiskit.

Lemma counter_integers_in_range : integers_in_range.
Proof.
  intros high g Hhigh. simpl. apply Z.mod_pos_bound. exact Hhigh.
Defined.

(** The example of the source's comment: with qubits (8, 4, 5, 3, 7) the
    edges [[4, 8], [7, 5]] become [[1, 0], [4, 2]]. *)
Example logical_edges_of_the_comment :
  map_result (logical_edge [8; 4; 5; 3; 7]) [(4, 8); (7, 5)] = Ok [(1, 0); (4, 2)].
Proof. reflexivity. Qed.

Example edgegrab_run :
  random_edgegrab_clifford_circuits
    [8; 4; 5; 3; 7] [(4, 8); (7, 5); (8, 5); (3, 7)] 25 1 (RngSeed 5) =
  Ok [circuit 5 [cnot 4 2;
                 instr HGate [0]; instr SXdgGate [0]; instr XGate [0];
                 instr SGate [1]; instr XGate [1];
                 instr HGate [3]; instr SGate [3]; instr XGate [3]]].
Proof. vm_compute. reflexivity. Qed.

Example clifford_2_qubit_circuit_7000 :
  clifford_2_qubit_circuit 7000 =
  Ok (circuit 2 [instr SXdgGate [0]; instr SXdgGate [1];
                 cnot 0 1; cnot 1 0;
                 instr VGate [0]; instr VGate [1]; instr VGate [1];
                 instr ZGate [0]]).
Proof. vm_compute. reflexivity. Qed.

Lemma edgegrab_matching_valid_witness :
  exists selected_edges g',
    grab_edges 4 [(4, 8); (7, 5); (8, 5); (3, 7)] [] 5 = Ok (selected_edges, g') /\
    incl selected_edges [(4, 8); (7, 5); (8, 5); (3, 7)] /\
    vertex_disjoint selected_edges.
Proof.
  exact (proj1 (@edgegrab_matching_valid
                  counter_numerics circuits_qiskit counter_integers_in_range
                  [8; 4; 5; 3; 7] [(4, 8); (7, 5); (8, 5); (3, 7)] 25 1%nat (RngSeed 5))
               5).
Defined.

Lemma edgegrab_coverage_witness :
  exists qcs,
    random_edgegrab_clifford_circuits
      [8; 4; 5; 3; 7] [(4, 8); (7, 5); (8, 5); (3, 7)] 25 2 (RngSeed 5) = Ok qcs /\
    length qcs = 2%nat /\
    exists ls rng',
      edgegrab_loop 2 [8; 4; 5; 3; 7] [(4, 8); (7, 5); (8, 5); (3, 7)] 25
                    (resolve_rng (RngSeed 5)) = Ok (ls, rng') /\
      qcs = map qc ls /\ Forall (turn_covered [8; 4; 5; 3; 7]) ls.
Proof.
  eexists. split; [vm_compute; reflexivity|].
  apply (@edgegrab_coverage
           counter_numerics circuits_qiskit counter_integers_in_range
           [8; 4; 5; 3; 7] [(4, 8); (7, 5); (8, 5); (3, 7)] 25 2%nat (RngSeed 5)).
  - simpl. lia.
  - vm_compute. reflexivity.
Defined.

Lemma edgegrab_no_connectivity_witness :
  exists ls rng',
    edgegrab_loop 1 [0; 1; 2] [] 25 (resolve_rng (RngSeed 5)) = Ok (ls, rng') /\
    random_edgegrab_clifford_circuits [0; 1; 2] [] 25 1 (RngSeed 5) = Ok (map qc ls) /\
    length ls = 1%nat /\
    Forall (degraded_turn [0; 1; 2]) ls.
Proof.
  assert (Hn : (2 <= length [0; 1; 2])%nat) by (simpl; lia).
  exact (@edgegrab_no_connectivity
           counter_numerics circuits_qiskit counter_integers_in_range
           [0; 1; 2] 25 1%nat (RngSeed 5) Hn).
Defined.

(** On the instance: three qubits and no edge give one turn that warns of
    the missing connectivity, keeps the probability at the integer 0 and
    places 1-qubit gates only. *)
Example empty_coupling_map_run :
  edgegrab_loop 1 [0; 1; 2] [] 25 5 =
  Ok ([mk_edgegrab_locals [] (PyInt 0) [no_connectivity_warning] [] [0; 1; 2]
         (circuit 3 [instr HGate [0]; instr SGate [0];
                     instr XGate [1];
                     instr HGate [2]; instr XGate [2]])], 8).
Proof. vm_compute. reflexivity. Qed.

Lemma compute_target_bitstring_spec_witness :
  compute_target_bitstring (circuit 1 [instr XGate [0]]) = "1"%string /\
  compute_target_bitstring (circuit 1 []) = "0"%string.
Proof.
  destruct (@compute_target_bitstring_spec
              counter_numerics circuits_qiskit (circuit 1 [instr XGate [0]]))
    as (_ & _ & Hx & Hempty).
  - reflexivity.
  - split; [apply Hx | apply Hempty]; reflexivity.
Defined.

(** * Part III: further properties of the program *)

(** ** Unranking *)

Lemma unpack_loop_zero_radix (sig : list Z) :
  In 0 sig -> forall res num, unpack_loop sig res num = Raise ZeroDivisionError.
Proof.
  induction sig as [|k sig IH]; intros Hin res num; [contradiction|].
  simpl. destruct (Z.eqb_spec k 0) as [Hk|Hk]; [reflexivity|].
  destruct Hin as [Hin|Hin]; [congruence | now apply IH].
Qed.

Lemma unpack_num_nonzero (sig : list Z) :
  ~ In 0 sig ->
  forall num, exists ds, _unpack_num num sig = Ok ds /\ length ds = length sig.
Proof.
  induction sig as [|k sig IH]; intros Hnz num.
  - exists []. split; reflexivity.
  - assert (Hk : k <> 0) by (intros ->; apply Hnz; now left).
    destruct (IH (fun H => Hnz (or_intror H)) (num / k)) as (ds & Hds & Hlen).
    exists (num mod k :: ds). rewrite unpack_num_cons by exact Hk.
    rewrite Hds. simpl. split; [reflexivity | now rewrite Hlen].
Qed.

(** X1. [_unpack_num] returns, for every integer (negative or beyond the
    span as well), a list of exactly as many digits as the signature has
    radices, as long as no radix is zero; with a zero radix it raises
    [ZeroDivisionError]. *)
Theorem unpack_num_length_or_zero_division (sig : list Z) (num : Z) :
  (~ In 0 sig ->
   exists ds, _unpack_num num sig = Ok ds /\ length ds = length sig) /\
  (In 0 sig -> _unpack_num num sig = Raise ZeroDivisionError).
Proof.
  split.
  - intros Hnz. now apply unpack_num_nonzero.
  - intros Hin. now apply unpack_loop_zero_radix.
Qed.

(** X2. Round trip against several signatures of positive radices: an index
    below the sum of the spans is resolved to a form that is a position of
    the list and to digits within the radices of that form's signature; the
    spans before the form plus the composition of the digits give the index
    back, so no other index of the range is resolved to the same form and
    digits. *)
Theorem unpack_num_multi_sigs_roundtrip (sigs : list (list Z)) (num : Z) :
  Forall positive_radices sigs ->
  0 <= num < total_span sigs ->
  exists form ds,
    _unpack_num_multi_sigs num sigs = Ok (Some (form :: ds)) /\
    0 <= form < Z.of_nat (length sigs) /\
    digits_in_range ds (nth (Z.to_nat form) sigs []) /\
    compose_multi sigs form ds = num /\
    (forall num', 0 <= num' < total_span sigs -> num' <> num ->
       _unpack_num_multi_sigs num' sigs <> Ok (Some (form :: ds))).
Proof.
  intros Hsigs Hnum.
  assert (Hmain : forall n, 0 <= n < total_span sigs ->
            exists form ds,
              _unpack_num_multi_sigs n sigs = Ok (Some (form :: ds)) /\
              0 <= form < Z.of_nat (length sigs) /\
              digits_in_range ds (nth (Z.to_nat form) sigs []) /\
              compose_multi sigs form ds = n).
  { intros n Hn.
    destruct (multi_sigs_loop_some Hsigs 0 Hn)
      as (k & sig & ds & Hk & Hoff & Hds & _ & Hres).
    assert (Hsig : positive_radices sig).
    { rewrite Forall_forall in Hsigs. apply Hsigs. eapply nth_error_In; eauto. }
    exists (0 + Z.of_nat k), ds. split; [exact Hres|].
    assert (Hlt : (k < length sigs)%nat)
      by (apply nth_error_Some; congruence).
    split; [lia|].
    replace (Z.to_nat (0 + Z.of_nat k)) with k by lia.
    unfold compose_multi.
    replace (Z.to_nat (0 + Z.of_nat k)) with k by lia.
    rewrite (nth_error_nth _ _ _ Hk). split.
    - eapply unpack_num_digits; eauto.
    - rewrite (@unpack_num_compose sig Hsig (n - total_span (firstn k sigs)) ds);
        [lia | lia | exact Hds]. }
  destruct (Hmain num Hnum) as (form & ds & Hres & Hform & Hdigits & Hcompose).
  exists form, ds. repeat split; auto; try lia.
  intros num' Hnum' Hneq Hres'.
  destruct (Hmain num' Hnum') as (form' & ds' & Hres2 & _ & _ & Hcompose').
  rewrite Hres' in Hres2. inversion Hres2; subst form' ds'. lia.
Qed.

Lemma unpack_num_multi_sigs_roundtrip_witness :
  exists form ds,
    _unpack_num_multi_sigs 7000 CLIFFORD_2_QUBIT_SIGS = Ok (Some (form :: ds)) /\
    compose_multi CLIFFORD_2_QUBIT_SIGS form ds = 7000.
Proof.
  destruct (@unpack_num_multi_sigs_roundtrip CLIFFORD_2_QUBIT_SIGS 7000)
    as (form & ds & Hres & _ & _ & Hcompose & _).
  - repeat constructor.
  - split; [lia | reflexivity].
  - exists form, ds. split; assumption.
Defined.

(** X3. A negative index is not rejected by [_unpack_num_multi_sigs]: it is
    below the first span, so it is given the first form, with the digits of
    the index modulo that span.  [clifford_2_qubit_circuit] thus returns for
    a negative index the circuit of the index modulo 576. *)
Theorem negative_index_takes_first_form (num : Z) :
  num < 0 ->
  (forall sig sigs,
      positive_radices sig ->
      _unpack_num_multi_sigs num (sig :: sigs) =
      _unpack_num_multi_sigs (num mod sig_size sig) (sig :: sigs)) /\
  exists qc,
    clifford_2_qubit_circuit num = Ok qc /\
    clifford_2_qubit_circuit (num mod 576) = Ok qc.
Proof.
  intros Hneg.
  assert (Hgen : forall sig sigs,
             positive_radices sig ->
             _unpack_num_multi_sigs num (sig :: sigs) =
             _unpack_num_multi_sigs (num mod sig_size sig) (sig :: sigs)).
  { intros sig sigs Hsig. pose proof (sig_size_pos Hsig) as Hpos.
    unfold _unpack_num_multi_sigs. cbn [multi_sigs_loop].
    pose proof (Z.mod_pos_bound num (sig_size sig) Hpos) as Hmod.
    destruct (Z.ltb_spec num (sig_size sig)); [|lia].
    destruct (Z.ltb_spec (num mod sig_size sig) (sig_size sig)); [|lia].
    now rewrite <- unpack_num_wraps. }
  split; [exact Hgen|].
  assert (Heq : clifford_2_qubit_circuit num = clifford_2_qubit_circuit (num mod 576)).
  { unfold clifford_2_qubit_circuit, CLIFFORD_2_QUBIT_SIGS.
    rewrite Hgen by (repeat constructor). reflexivity. }
  rewrite Heq.
  destruct (@clifford_2_qubit_circuit_ok (num mod 576)) as (qc & Hqc).
  { pose proof (Z.mod_pos_bound num 576). unfold NUM_CLIFFORD_2_QUBIT. lia. }
  eauto.
Qed.

Lemma negative_index_takes_first_form_witness :
  exists qc,
    clifford_2_qubit_circuit (-1) = Ok qc /\
    clifford_2_qubit_circuit 575 = Ok qc.
Proof.
  destruct (@negative_index_takes_first_form (-1)) as (_ & qc & H1 & H2).
  - lia.
  - exists qc. split; assumption.
Defined.

(** ** Synthesis is one to one *)

Lemma reads_back_all (synth : Z -> result QuantumCircuit)
      (rank : list Instruction -> Z) (n : nat) :
  forallb (reads_back synth rank) (arange n) = true ->
  forall num, 0 <= num < Z.of_nat n ->
    exists qc, synth num = Ok qc /\ rank (data qc) = num.
Proof.
  intros Hall num Hnum. rewrite forallb_forall in Hall.
  specialize (Hall num (proj2 (arange_In n num) Hnum)).
  unfold reads_back in Hall. destruct (synth num) as [qc|e]; [|discriminate].
  exists qc. split; [reflexivity | now apply Z.eqb_eq].
Qed.

Lemma reads_back_1_qubit :
  forallb (reads_back clifford_1_qubit_circuit rank_1_qubit)
          (arange (Z.to_nat NUM_CLIFFORD_1_QUBIT)) = true.
Proof. vm_compute. reflexivity. Qed.

Lemma reads_back_2_qubit :
  forallb (reads_back clifford_2_qubit_circuit rank_2_qubit)
          (arange (Z.to_nat NUM_CLIFFORD_2_QUBIT)) = true.
Proof. vm_compute. reflexivity. Qed.

(** X4. The 24 circuits of [clifford_1_qubit_circuit] are pairwise different
    gate sequences: the index of [[0, 24)] is read back off the gates, so
    two indices of the range with the same circuit are the same index. *)
Theorem clifford_1_qubit_circuit_injective (num : Z) :
  0 <= num < NUM_CLIFFORD_1_QUBIT ->
  (exists qc, clifford_1_qubit_circuit num = Ok qc /\
              rank_1_qubit (data qc) = num) /\
  (forall num', 0 <= num' < NUM_CLIFFORD_1_QUBIT ->
     clifford_1_qubit_circuit num' = clifford_1_qubit_circuit num ->
     num' = num).
Proof.
  intros Hnum.
  assert (Hback : forall n, 0 <= n < NUM_CLIFFORD_1_QUBIT ->
            exists qc, clifford_1_qubit_circuit n = Ok qc /\
                       rank_1_qubit (data qc) = n).
  { intros n Hn. apply (reads_back_all _ _ _ reads_back_1_qubit).
    unfold NUM_CLIFFORD_1_QUBIT in *. simpl. lia. }
  split; [now apply Hback|].
  intros num' Hnum' Heq.
  destruct (Hback num Hnum) as (qc & Hqc & Hrank).
  destruct (Hback num' Hnum') as (qc' & Hqc' & Hrank').
  rewrite Heq, Hqc in Hqc'. inversion Hqc'; subst qc'. congruence.
Qed.

Lemma clifford_1_qubit_circuit_injective_witness :
  (exists qc, clifford_1_qubit_circuit 17 = Ok qc /\ rank_1_qubit (data qc) = 17) /\
  (0 <= 5 < NUM_CLIFFORD_1_QUBIT ->
   clifford_1_qubit_circuit 5 = clifford_1_qubit_circuit 17 -> 5 = 17).
Proof.
  destruct (@clifford_1_qubit_circuit_injective 17) as (Hback & Hinj).
  - unfold NUM_CLIFFORD_1_QUBIT. lia.
  - split; [exact Hback | exact (Hinj 5)].
Defined.

(** X5. The 11520 circuits of [clifford_2_qubit_circuit] are pairwise
    different gate sequences: the index of [[0, 11520)] is read back off the
    gates (form by the CNOT pattern, digits layer by layer), so two indices
    of the range with the same circuit are the same index. *)
Theorem clifford_2_qubit_circuit_injective (num : Z) :
  0 <= num < NUM_CLIFFORD_2_QUBIT ->
  (exists qc, clifford_2_qubit_circuit num = Ok qc /\
              rank_2_qubit (data qc) = num) /\
  (forall num', 0 <= num' < NUM_CLIFFORD_2_QUBIT ->
     clifford_2_qubit_circuit num' = clifford_2_qubit_circuit num ->
     num' = num).
Proof.
  intros Hnum.
  assert (Hback : forall n, 0 <= n < NUM_CLIFFORD_2_QUBIT ->
            exists qc, clifford_2_qubit_circuit n = Ok qc /\
                       rank_2_qubit (data qc) = n).
  { intros n Hn. apply (reads_back_all _ _ _ reads_back_2_qubit).
    unfold NUM_CLIFFORD_2_QUBIT in *. lia. }
  split; [now apply Hback|].
  intros num' Hnum' Heq.
  destruct (Hback num Hnum) as (qc & Hqc & Hrank).
  destruct (Hback num' Hnum') as (qc' & Hqc' & Hrank').
  rewrite Heq, Hqc in Hqc'. inversion Hqc'; subst qc'. congruence.
Qed.

Lemma clifford_2_qubit_circuit_injective_witness :
  (exists qc, clifford_2_qubit_circuit 7000 = Ok qc /\
              rank_2_qubit (data qc) = 7000) /\
  (0 <= 7001 < NUM_CLIFFORD_2_QUBIT ->
   clifford_2_qubit_circuit 7001 = clifford_2_qubit_circuit 7000 -> 7001 = 7000).
Proof.
  destruct (@clifford_2_qubit_circuit_injective 7000) as (Hback & Hinj).
  - unfold NUM_CLIFFORD_2_QUBIT. lia.
  - split; [exact Hback | exact (Hinj 7001)].
Defined.

(** ** The shape of the synthesized circuits *)

Lemma shaped_app (n a b ca cb : nat) (A B : list Instruction) :
  shaped n a ca A -> shaped n b cb B -> shaped n (a + b) (ca + cb) (A ++ B).
Proof.
  unfold shaped, count_cx. intros (HA & HlA & HcA) (HB & HlB & HcB).
  rewrite filter_app, !length_app. repeat split.
  - apply Forall_app. split; assumption.
  - lia.
  - lia.
Qed.

Lemma shaped_weaken (n a a' c : nat) (A : list Instruction) :
  shaped n a c A -> (a <= a')%nat -> shaped n a' c A.
Proof.
  unfold shaped. intros (HA & Hl & Hc) Hle. repeat split; auto. lia.
Qed.

Lemma fits_single (n : nat) (g : Gate) (q : Z) :
  0 <= q < Z.of_nat n -> is_cx (instr g [q]) = false ->
  fits_register n (instr g [q]).
Proof.
  intros Hq Hcx. unfold fits_register. rewrite Hcx. simpl.
  repeat split; repeat constructor; auto; lia.
Qed.

Lemma fits_cnot (n : nat) (c t : Z) :
  0 <= c < Z.of_nat n -> 0 <= t < Z.of_nat n -> c <> t ->
  fits_register n (cnot c t).
Proof.
  intros Hc Ht Hct. unfold fits_register, cnot. simpl.
  repeat split; repeat constructor; auto; try lia.
  intros [H|[]]. congruence.
Qed.

(** Decides the shape of a layer given by cases on a digit. *)
Ltac layer_shaped :=
  repeat match goal with |- context [if ?b then _ else _] => destruct b end;
  unfold shaped, count_cx; simpl;
  repeat split; try lia;
  repeat first
    [ apply Forall_nil
    | apply Forall_cons; [apply fits_single; [assumption | reflexivity]|] ].

Lemma hadamard_layer_shaped (n : nat) (i q : Z) :
  0 <= q < Z.of_nat n -> shaped n 1 0 (hadamard_layer i q).
Proof. intros Hq. rewrite hadamard_layer_if. layer_shaped. Qed.

Lemma s_type_layer_shaped (n : nat) (j q : Z) :
  0 <= q < Z.of_nat n -> 0 <= j < 3 -> shaped n 1 0 (s_type_layer j q).
Proof.
  intros Hq Hj. assert (Hc : j = 0 \/ j = 1 \/ j = 2) by lia.
  destruct Hc as [-> | [-> | ->]]; cbn [s_type_layer]; layer_shaped.
Qed.

Lemma pauli_layer_shaped (n : nat) (p q : Z) :
  0 <= q < Z.of_nat n -> shaped n 1 0 (pauli_layer p q).
Proof.
  intros Hq. destruct p as [|[[r|r|]|[r|r|]|]|r]; cbn [pauli_layer]; layer_shaped.
Qed.

Lemma correction_0_shaped (k0 : Z) : shaped 2 1 0 (correction_0 k0).
Proof.
  assert (Hq : 0 <= 0 < Z.of_nat 2) by (simpl; lia).
  destruct k0 as [|[r|[r|r|]|]|r]; cbn [correction_0]; layer_shaped.
Qed.

Lemma correction_1_shaped (k1 : Z) : shaped 2 2 0 (correction_1 k1).
Proof.
  assert (Hq : 0 <= 1 < Z.of_nat 2) by (simpl; lia).
  destruct k1 as [|[r|[r|r|]|]|r]; cbn [correction_1]; layer_shaped.
Qed.

Lemma entangling_layer_shaped (form : Z) :
  0 <= form < 4 -> shaped 2 (Z.to_nat form) (Z.to_nat form) (entangling_layer form).
Proof.
  intros Hform. assert (Hc : form = 0 \/ form = 1 \/ form = 2 \/ form = 3) by lia.
  destruct Hc as [-> | [-> | [-> | ->]]]; cbn [entangling_layer];
    unfold shaped, count_cx; simpl; repeat split; try lia;
    repeat first
      [ apply Forall_nil
      | apply Forall_cons; [apply fits_cnot; simpl; lia|] ].
Qed.

(** X6. For every integer index, [clifford_1_qubit_circuit] returns a
    circuit on one qubit with at most three instructions, all of them
    single-qubit gates on qubit 0; the circuit is empty exactly for the
    indices that are 0 modulo 24. *)
Theorem clifford_1_qubit_circuit_shape (num : Z) :
  exists qc,
    clifford_1_qubit_circuit num = Ok qc /\
    num_qubits qc = 1%nat /\
    shaped 1 3 0 (data qc) /\
    (data qc = [] <-> num mod NUM_CLIFFORD_1_QUBIT = 0).
Proof.
  exists (circuit 1 (one_qubit_layers num 0)).
  split; [apply clifford_1_qubit_circuit_layers|]. split; [reflexivity|].
  assert (Hq : 0 <= 0 < Z.of_nat 1) by (simpl; lia).
  split.
  - cbn [data]. unfold one_qubit_layers.
    apply (@shaped_app 1 1 2 0 0); [now apply hadamard_layer_shaped|].
    apply (@shaped_app 1 1 1 0 0);
      [apply s_type_layer_shaped; [exact Hq | apply Z.mod_pos_bound; lia]
      | now apply pauli_layer_shaped].
  - cbn [data].
    pose proof (clifford_1_qubit_circuit_wraps num) as Hwrap.
    rewrite !clifford_1_qubit_circuit_layers in Hwrap.
    inversion Hwrap as [Hdata]. rewrite Hdata.
    pose proof (Z.mod_pos_bound num NUM_CLIFFORD_1_QUBIT) as Hm.
    unfold NUM_CLIFFORD_1_QUBIT in *.
    assert (Hin : In (num mod 24) (arange 24)) by (apply arange_In; simpl; lia).
    clear Hdata Hwrap Hm. revert Hin. generalize (num mod 24). intros m Hin.
    simpl in Hin.
    repeat (destruct Hin as [<-|Hin]; [vm_compute; split; congruence|]).
    contradiction.
Qed.

(** X7. For an index of [[0, 11520)], [clifford_2_qubit_circuit] returns a
    circuit on two qubits whose number of CNOTs is the form of the index (0
    below 576, 1 below 5760, 2 below 10944, 3 above), with at most eleven
    instructions, each on qubits of the register: a CNOT on the two
    different qubits, any other gate on one. *)
Theorem clifford_2_qubit_circuit_shape (num : Z) :
  0 <= num < NUM_CLIFFORD_2_QUBIT ->
  exists form ds qc,
    _unpack_num_multi_sigs num CLIFFORD_2_QUBIT_SIGS = Ok (Some (form :: ds)) /\
    form = (if num <? 576 then 0 else if num <? 5760 then 1
            else if num <? 10944 then 2 else 3) /\
    clifford_2_qubit_circuit num = Ok qc /\
    num_qubits qc = 2%nat /\
    shaped 2 11 (Z.to_nat form) (data qc).
Proof.
  intros Hnum.
  destruct (unpack_2_qubit_index Hnum) as (form & ds & Hres & Hform).
  assert (Hform4 : 0 <= form < 4) by intuition lia.
  assert (H0 : 0 <= 0 < Z.of_nat 2) by (simpl; lia).
  assert (H1 : 0 <= 1 < Z.of_nat 2) by (simpl; lia).
  destruct (clifford_2_qubit_circuit_cases Hnum)
    as (form' & ds' & Hres' & Hcases).
  assert (Hsame : form' = form /\ ds' = ds) by (split; congruence).
  destruct Hsame as (-> & ->). clear Hres'.
  destruct Hcases as [(Hf & i0 & i1 & j0 & j1 & p0 & p1 & -> & Hqc)
                     |(Hf & i0 & i1 & j0 & j1 & k0 & k1 & p0 & p1 & -> & _ & _ & Hqc)].
  - assert (Hd : digits_in_range [i0; i1; j0; j1; p0; p1] [2; 2; 3; 3; 4; 4])
      by (destruct Hform as [(_ & _ & Hd)|[(Hc & _)|[(Hc & _)|(_ & _ & Hd)]]];
          [exact Hd | lia | lia | exact Hd]).
    invert_digits.
    eexists form, _, _. split; [exact Hres|]. split.
    { destruct (Z.ltb_spec num 576), (Z.ltb_spec num 5760), (Z.ltb_spec num 10944);
        intuition lia. }
    split; [exact Hqc|]. split; [reflexivity|]. cbn [data].
    apply shaped_weaken with (a := (1 + (1 + (1 + (1 + (Z.to_nat form + (1 + 1))))))%nat);
      [|lia].
    replace (Z.to_nat form)
      with (0 + (0 + (0 + (0 + (Z.to_nat form + (0 + 0))))))%nat at 2 by lia.
    repeat apply shaped_app;
      auto using hadamard_layer_shaped, s_type_layer_shaped, pauli_layer_shaped,
                 entangling_layer_shaped.
  - assert (Hd : digits_in_range [i0; i1; j0; j1; k0; k1; p0; p1]
                                 [2; 2; 3; 3; 3; 3; 4; 4])
      by (destruct Hform as [(Hc & _)|[(_ & _ & Hd)|[(_ & _ & Hd)|(Hc & _)]]];
          [lia | exact Hd | exact Hd | lia]).
    invert_digits.
    eexists form, _, _. split; [exact Hres|]. split.
    { destruct (Z.ltb_spec num 576), (Z.ltb_spec num 5760), (Z.ltb_spec num 10944);
        intuition lia. }
    split; [exact Hqc|]. split; [reflexivity|]. cbn [data].
    apply shaped_weaken
      with (a := (1 + (1 + (1 + (1 + (Z.to_nat form + (1 + (2 + (1 + 1))))))))%nat);
      [|lia].
    replace (Z.to_nat form)
      with (0 + (0 + (0 + (0 + (Z.to_nat form + (0 + (0 + (0 + 0))))))))%nat
      at 2 by lia.
    repeat apply shaped_app;
      auto using hadamard_layer_shaped, s_type_layer_shaped, pauli_layer_shaped,
                 entangling_layer_shaped, correction_0_shaped, correction_1_shaped.
Qed.

Lemma clifford_2_qubit_circuit_shape_witness :
  exists qc,
    clifford_2_qubit_circuit 7000 = Ok qc /\ shaped 2 11 2 (data qc).
Proof.
  destruct (@clifford_2_qubit_circuit_shape 7000)
    as (form & ds & qc & _ & Hform & Hqc & _ & Hshape).
  - unfold NUM_CLIFFORD_2_QUBIT. lia.
  - exists qc. split; [exact Hqc|]. rewrite Hform in Hshape. exact Hshape.
Defined.

(** ** The uniform samplers below three qubits *)

Lemma clifford_2_qubit_circuit_register (num : Z) :
  0 <= num < NUM_CLIFFORD_2_QUBIT ->
  exists d, clifford_2_qubit_circuit num = Ok (circuit 2 d).
Proof.
  intros Hnum.
  destruct (clifford_2_qubit_circuit_cases Hnum)
    as (form & ds & _ & [(_ & H)|(_ & H)]).
  - destruct H as (? & ? & ? & ? & ? & ? & _ & H). eauto.
  - destruct H as (? & ? & ? & ? & ? & ? & ? & ? & _ & _ & _ & H). eauto.
Qed.

Lemma map_result_Forall2_in {A B} (f : A -> result B) (P : A -> Prop)
      (R : A -> B -> Prop) (l : list A) (bs : list B) :
  (forall a b, P a -> f a = Ok b -> R a b) ->
  Forall P l -> map_result f l = Ok bs -> Forall2 R l bs.
Proof.
  intros HR HP H. apply map_result_Forall2 in H.
  induction H as [|a b l bs Hab _ IH]; constructor.
  - inversion HP; subst. auto.
  - inversion HP; subst. auto.
Qed.

Section SamplersBelowThree.

Context {N : Numerics} {Q : Qiskit}.
Hypothesis integers_size_range : integers_size_in_range.

(** X8. [random_clifford_circuits] returns exactly [size] circuits for every
    number of qubits.  For one qubit each is the 1-qubit circuit of a drawn
    index of [[0, 24)]; for any other number of qubits up to two (zero and
    the negative numbers as well) each is the 2-qubit circuit of a drawn
    index of [[0, 11520)]. *)
Theorem random_clifford_circuits_draws (n_qubits : Z) (size : nat) (rng : rng_arg) :
  exists qcs,
    random_clifford_circuits n_qubits size rng = Ok qcs /\
    length qcs = size /\
    (n_qubits = 1 ->
     exists samples,
       Forall2 (fun i qc => 0 <= i < NUM_CLIFFORD_1_QUBIT /\
                            clifford_1_qubit_circuit i = Ok qc /\
                            num_qubits qc = 1%nat) samples qcs) /\
    (n_qubits <= 2 -> n_qubits <> 1 ->
     exists samples,
       Forall2 (fun i qc => 0 <= i < NUM_CLIFFORD_2_QUBIT /\
                            clifford_2_qubit_circuit i = Ok qc /\
                            num_qubits qc = 2%nat) samples qcs).
Proof.
  destruct (random_clifford_circuits_length n_qubits size rng integers_size_range)
    as (qcs & Hqcs & Hlen).
  exists qcs. split; [exact Hqcs|]. split; [exact Hlen|].
  pose proof integers_size_range as Hint. unfold integers_size_in_range in Hint.
  unfold random_clifford_circuits in Hqcs. split.
  - intros ->. cbn in Hqcs.
    destruct (Hint 24 size (resolve_rng rng)) as (_ & Hall); [lia|].
    exists (fst (integers_size 24 size (resolve_rng rng))).
    eapply map_result_Forall2_in; [|exact Hall|exact Hqcs].
    intros i qc Hi Hsynth. split; [exact Hi|]. split; [exact Hsynth|].
    rewrite clifford_1_qubit_circuit_layers in Hsynth. now inversion Hsynth.
  - intros Hle Hneq.
    destruct (Z.ltb_spec 2 n_qubits); [lia|].
    destruct (Z.eqb_spec n_qubits 1); [contradiction|].
    destruct (Hint 11520 size (resolve_rng rng)) as (_ & Hall); [lia|].
    exists (fst (integers_size 11520 size (resolve_rng rng))).
    eapply map_result_Forall2_in; [|exact Hall|exact Hqcs].
    intros i qc Hi Hsynth. split; [exact Hi|]. split; [exact Hsynth|].
    destruct (clifford_2_qubit_circuit_register Hi) as (d & Hd).
    rewrite Hd in Hsynth. now inversion Hsynth.
Qed.

(** X9. Up to two qubits [random_cliffords] returns a list of exactly [size]
    elements, each the [Clifford] of the synthesized circuit of a drawn
    index of the group's range (the 1-qubit group for one qubit, the
    2-qubit group otherwise). *)
Theorem random_cliffords_draws (num_qubits : Z) (size : nat) (rng : rng_arg) :
  num_qubits <= 2 ->
  exists samples l,
    random_cliffords num_qubits size rng = Ok (ListOfCliffords l) /\
    length l = size /\
    Forall2 (fun i c =>
               exists qc,
                 (if num_qubits =? 1
                  then 0 <= i < NUM_CLIFFORD_1_QUBIT /\
                       clifford_1_qubit_circuit i = Ok qc
                  else 0 <= i < NUM_CLIFFORD_2_QUBIT /\
                       clifford_2_qubit_circuit i = Ok qc) /\
                 c = Clifford_of qc) samples l.
Proof.
  intros Hle.
  destruct (random_cliffords_length size rng integers_size_range Hle)
    as (l & Hl & Hlen).
  pose proof integers_size_range as Hint. unfold integers_size_in_range in Hint.
  unfold random_cliffords in Hl.
  destruct (Z.ltb_spec 2 num_qubits); [lia|].
  destruct (Z.eqb_spec num_qubits 1) as [->|Hneq].
  - destruct (Hint 24 size (resolve_rng rng)) as (_ & Hall); [lia|].
    exists (fst (integers_size 24 size (resolve_rng rng))), l.
    split; [unfold random_cliffords; cbn; exact Hl|]. split; [exact Hlen|].
    apply bind_ok in Hl as (l' & Hl' & Hret). inversion Hret; subst l'.
    eapply map_result_Forall2_in; [|exact Hall|exact Hl'].
    intros i c Hi Hc. cbn beta in Hc.
    apply bind_ok in Hc as (qc & Hqc & Hret'). inversion Hret'; subst.
    exists qc. auto.
  - destruct (Hint 11520 size (resolve_rng rng)) as (_ & Hall); [lia|].
    exists (fst (integers_size 11520 size (resolve_rng rng))), l.
    split.
    { unfold random_cliffords. destruct (Z.ltb_spec 2 num_qubits); [lia|].
      destruct (Z.eqb_spec num_qubits 1); [contradiction | exact Hl]. }
    split; [exact Hlen|].
    apply bind_ok in Hl as (l' & Hl' & Hret). inversion Hret; subst l'.
    eapply map_result_Forall2_in; [|exact Hall|exact Hl'].
    intros i c Hi Hc. cbn beta in Hc.
    apply bind_ok in Hc as (qc & Hqc & Hret'). inversion Hret'; subst.
    exists qc. auto.
Qed.

End SamplersBelowThree.

(** ** More on the edge grab *)

Lemma nth_error_cut {A} (l : list A) :
  forall j a, nth_error l j = Some a -> l = firstn j l ++ a :: skipn (S j) l.
Proof.
  induction l as [|b l IH]; intros [|j] a H; simpl in H; try discriminate.
  - now inversion H.
  - simpl. f_equal. now apply IH.
Qed.

Lemma pop_keeps_others {A} (l : list A) (i : Z) (a : A) (rest : list A) :
  pop l i = Ok (a, rest) -> forall b, In b l -> b = a \/ In b rest.
Proof.
  unfold pop. intros H b Hb.
  destruct ((0 <=? (if i <? 0 then i + Z.of_nat (length l) else i))
            && ((if i <? 0 then i + Z.of_nat (length l) else i)
                <? Z.of_nat (length l))); [|discriminate].
  destruct (nth_error l (Z.to_nat (if i <? 0 then i + Z.of_nat (length l) else i)))
    as [a'|] eqn:Hnth; [|discriminate].
  inversion H; subst a' rest. clear H.
  rewrite (nth_error_cut _ _ Hnth) in Hb.
  apply in_app_or in Hb as [Hb|[Hb|Hb]]; [right|left|right];
    auto using in_or_app.
Qed.

Lemma share_vertex_refl (e : edge) : share_vertex e e.
Proof. left. reflexivity. Qed.

Lemma where_first_missing (q : Z) (qubits : list Z) :
  ~ In q qubits -> forall pos, where_first q qubits pos = Raise IndexError.
Proof.
  induction qubits as [|q' rest IH]; intros Hq pos; simpl; [reflexivity|].
  destruct (Z.eqb_spec q q') as [->|Hneq]; [exfalso; apply Hq; now left|].
  apply IH. intros Hin. apply Hq. now right.
Qed.

Lemma where_first_raises (q : Z) (qubits : list Z) :
  forall pos e, where_first q qubits pos = Raise e -> e = IndexError.
Proof.
  induction qubits as [|q' rest IH]; intros pos e H; simpl in H.
  - now inversion H.
  - destruct (q =? q'); [discriminate | eauto].
Qed.

Lemma logical_edge_missing (qubits : list Z) (e : edge) :
  ~ (In (fst e) qubits /\ In (snd e) qubits) ->
  logical_edge qubits e = Raise IndexError.
Proof.
  intros Hmiss. unfold logical_edge.
  destruct (where_first (fst e) qubits 0) as [a|x] eqn:Ha; cbn [bind].
  - destruct (where_first (snd e) qubits 0) as [b|y] eqn:Hb; cbn [bind].
    + exfalso. apply Hmiss.
      apply where_first_nth in Ha as (_ & Ha), Hb as (_ & Hb).
      split; eapply nth_error_In; eauto.
    + now rewrite (where_first_raises _ _ _ Hb).
  - now rewrite (where_first_raises _ _ _ Ha).
Qed.

Lemma map_result_raises {A B} (f : A -> result B) (x : exn) (l : list A) :
  l <> [] -> (forall a, In a l -> f a = Raise x) -> map_result f l = Raise x.
Proof.
  destruct l as [|a l]; intros Hne Hall; [contradiction|].
  simpl. rewrite (Hall a) by now left. reflexivity.
Qed.

(** Counting the items of a list that pass a test. *)
Lemma filter_or_length {A} (f g : A -> bool) (l : list A) :
  (forall a, In a l -> f a = true -> g a = true -> False) ->
  length (filter (fun a => f a || g a) l) =
  (length (filter f l) + length (filter g l))%nat.
Proof.
  induction l as [|a l IH]; intros Hdis; [reflexivity|].
  simpl. pose proof (Hdis a (or_introl eq_refl)) as Ha.
  assert (IH' := IH (fun b Hb => Hdis b (or_intror Hb))).
  destruct (f a), (g a); simpl; try (exfalso; now apply Ha); lia.
Qed.

Lemma filter_eqb_length (a : Z) (l : list Z) :
  NoDup l -> In a l -> length (filter (fun v => v =? a) l) = 1%nat.
Proof.
  induction 1 as [|b l Hb Hl IH]; intros Hin; [contradiction|].
  simpl. destruct (Z.eqb_spec b a) as [->|Hneq].
  - simpl. rewrite filter_none; [reflexivity|].
    intros c Hc. apply Z.eqb_neq. intros ->. contradiction.
  - destruct Hin as [Hin|Hin]; [contradiction | now apply IH].
Qed.

(** The qubits of an array without repeats that the edges of a matching
    touch are two for each edge. *)
Lemma touched_length (l : list Z) (cnots : list edge) :
  NoDup l ->
  vertex_disjoint cnots ->
  Forall (fun e => In (fst e) l /\ In (snd e) l /\ fst e <> snd e) cnots ->
  length (filter (fun v => existsb (touches v) cnots) l) = (2 * length cnots)%nat.
Proof.
  intros Hl Hdis. induction Hdis as [|e cnots He Hdis IH]; intros Hall.
  - simpl. now rewrite filter_false.
  - inversion Hall as [|? ? (H0 & H1 & Hne) Hrest]; subst.
    cbn [existsb length].
    rewrite filter_or_length.
    + rewrite IH by exact Hrest. unfold touches.
      rewrite filter_or_length by (intros v _ Ha Hb; apply Z.eqb_eq in Ha, Hb; congruence).
      rewrite !filter_eqb_length by assumption. lia.
    + intros v _ Hv Hex. apply existsb_exists in Hex as (c & Hc & Hvc).
      rewrite Forall_forall in He. apply (He c Hc).
      apply touches_spec in Hv, Hvc. unfold share_vertex.
      destruct Hv, Hvc; subst; intuition congruence.
Qed.

Lemma vertex_disjoint_NoDup (edges : list edge) :
  vertex_disjoint edges -> NoDup edges.
Proof.
  induction 1 as [|e edges He _ IH]; constructor; [|exact IH].
  intros Hin. rewrite Forall_forall in He.
  apply (He e Hin). apply share_vertex_refl.
Qed.

Lemma count_cx_cnots (cnots : list edge) :
  count_cx (map cnot_of cnots) = length cnots.
Proof.
  unfold count_cx. induction cnots as [|e cnots IH]; simpl; [reflexivity|].
  now rewrite IH.
Qed.

Lemma clifford_layers_fit (n : nat) (singles nums : list Z) :
  Forall (fun q => 0 <= q < Z.of_nat n) singles ->
  Forall (fits_register n) (clifford_layers singles nums) /\
  count_cx (clifford_layers singles nums) = 0%nat.
Proof.
  unfold clifford_layers, count_cx.
  intros Hall. revert nums.
  induction Hall as [|q singles Hq _ IH]; intros [|num nums]; simpl;
    try (split; [constructor | reflexivity]).
  destruct (IH nums) as (Hfit & Hcount).
  rewrite filter_app, length_app, Hcount.
  pose proof (one_qubit_layers_single num q) as Hsingle. split.
  - apply Forall_app. split; [|exact Hfit].
    eapply Forall_impl; [|exact Hsingle].
    intros [g qs] (Hcx & Hqs). simpl in Hqs. subst qs.
    now apply fits_single.
  - rewrite filter_none; [reflexivity|].
    rewrite Forall_forall in Hsingle. intros ins Hins. now apply Hsingle.
Qed.

Section EdgeGrabMore.

Context {N : Numerics} {Q : Qiskit}.
Hypothesis integers_range : integers_in_range.

(** The while loop leaves no edge of the coupling map apart: each one is
    still to be examined or shares an endpoint with a selected edge. *)
Lemma grab_edges_maximal (coupling_map : list edge) (fuel : nat) :
  forall all_edges selected_edges rng selected_edges' rng',
    (forall e, In e coupling_map ->
       In e all_edges \/ exists s, In s selected_edges /\ share_vertex s e) ->
    grab_edges fuel all_edges selected_edges rng = Ok (selected_edges', rng') ->
    forall e, In e coupling_map ->
      exists s, In s selected_edges' /\ share_vertex s e.
Proof.
  induction fuel as [|fuel IH]; intros all_edges sel rng sel' rng' Hinv Hrun e He.
  - destruct all_edges; [|discriminate]. inversion Hrun; subst.
    destruct (Hinv e He) as [[]|Hs]. exact Hs.
  - destruct all_edges as [|e0 rest0].
    + inversion Hrun; subst. destruct (Hinv e He) as [[]|Hs]. exact Hs.
    + cbn [grab_edges] in Hrun.
      destruct (integers (Z.of_nat (length (e0 :: rest0))) rng) as [k rng1].
      apply bind_ok in Hrun as ([r rest] & Hpop & Hrun).
      eapply IH; [|exact Hrun|exact He].
      intros f Hf. destruct (Hinv f Hf) as [Hin|(s & Hs & Hshare)].
      * destruct (pop_keeps_others _ _ Hpop f Hin) as [->|Hrest].
        -- right. exists r. split; [apply in_or_app; right; now left|].
           apply share_vertex_refl.
        -- destruct (not_in (fst r) f && not_in (snd r) f) eqn:Hkeep.
           ++ left. apply filter_In. split; assumption.
           ++ right. exists r. split; [apply in_or_app; right; now left|].
              apply andb_false_iff in Hkeep. unfold not_in in Hkeep.
              rewrite !negb_false_iff, !orb_true_iff, !Z.eqb_eq in Hkeep.
              unfold share_vertex. tauto.
      * right. exists s. split; [apply in_or_app; now left | exact Hshare].
Qed.

(** What a turn that returns has computed, step by step. *)
Lemma edgegrab_circuit_inv (qubits : list Z) (coupling_map : list edge)
      (density : float) (rng rng' : Generator) (l : edgegrab_locals) :
  edgegrab_circuit qubits coupling_map density rng = Ok (l, rng') ->
  exists rng1 cnots nums,
    grab_edges (length coupling_map) coupling_map [] rng =
      Ok (selected_edges l, rng1) /\
    (two_qubit_prob l, warnings l) =
      (let '(prob, warned) :=
         if Z.of_nat (length (selected_edges l)) =? 0
         then (PyInt 0, [no_connectivity_warning])
         else (PyFloat (float_div
                          (float_mul (float_of_int (Z.of_nat (length qubits)))
                                     density)
                          (float_of_int (Z.of_nat (length (selected_edges l))))),
               []) in
       (prob, if gt_one prob then warned ++ [density_warning] else warned)) /\
    map_result (logical_edge qubits) (selected_edges l) =
      Ok (selected_edges_logical l) /\
    incl cnots (selected_edges_logical l) /\
    vertex_disjoint cnots /\
    Forall (fun e => fst e <> snd e) cnots /\
    put_1_qubit_clifford l =
      filter (fun v => negb (existsb (touches v) cnots)) (arange (length qubits)) /\
    qc l = circuit (length qubits)
                   (map cnot_of cnots
                    ++ clifford_layers (put_1_qubit_clifford l) nums) /\
    length nums = length (put_1_qubit_clifford l).
Proof.
  unfold edgegrab_circuit. intros H.
  destruct (@grab_edges_matching _ integers_range coupling_map (length coupling_map)
              coupling_map [] rng)
    as (sel & rng1 & Hgrab & Hincl & Hdis);
    [lia | apply incl_refl | intros e [] | constructor | intros s e [] |].
  rewrite Hgrab in H. cbn [bind] in H.
  destruct (if Z.of_nat (length sel) =? 0
            then (PyInt 0, [no_connectivity_warning])
            else _) as [prob warned] eqn:Hprob in H.
  apply bind_ok in H as (logical & Hlogical & H).
  apply bind_ok in H as ([[qc1 put1] rng2] & Hcnots & H).
  unfold QC.new in Hcnots.
  apply place_cnots_spec in Hcnots as (cnots & -> & Hcin & Hneq & Hcdis & ->);
    [|apply arange_sorted | eapply logical_edges_matching; eauto].
  destruct (place_cliffords_spec integers_range (length qubits)
              (filter (fun v => negb (existsb (touches v) cnots))
                      (arange (length qubits)))
              ([] ++ map cnot_of cnots) rng2)
    as (nums & rng3 & Hrun & Hlen & Hnums).
  rewrite Hrun in H. cbn [bind] in H. inversion H; subst; clear H.
  exists rng1, cnots, nums. cbn.
  repeat split; auto. now rewrite Hprob.
Qed.


Lemma edgegrab_loop_Forall (P : edgegrab_locals -> Prop)
      (qubits : list Z) (coupling_map : list edge) (density : float) :
  (forall rng rng' l,
      edgegrab_circuit qubits coupling_map density rng = Ok (l, rng') -> P l) ->
  forall size rng rng' ls,
    edgegrab_loop size qubits coupling_map density rng = Ok (ls, rng') ->
    Forall P ls.
Proof.
  intros HP. induction size as [|size IH]; intros rng rng' ls H; simpl in H.
  - inversion H. constructor.
  - apply bind_ok in H as ([l rng1] & Hl & H).
    apply bind_ok in H as ([ls' rng2] & Hls & H).
    inversion H; subst. constructor; eauto.
Qed.

(** X10. The matching that the while loop selects is maximal: from every
    state of the generator the loop ends, and every edge of the coupling
    map shares an endpoint with a selected edge, so no edge of the coupling
    map could be added to the selected ones.  So it is in every turn of the
    outer loop of a call that returns, the circuits returned being those of
    these turns. *)
Theorem edgegrab_matching_maximal (qubits : list Z) (coupling_map : list edge)
        (density : float) (size : nat) (rng : rng_arg) :
  (forall g, exists selected_edges g',
      grab_edges (length coupling_map) coupling_map [] g = Ok (selected_edges, g') /\
      forall e, In e coupling_map ->
        exists s, In s selected_edges /\ share_vertex s e) /\
  (forall qcs,
      length qubits <> 1%nat ->
      random_edgegrab_clifford_circuits qubits coupling_map density size rng = Ok qcs ->
      exists ls rng',
        edgegrab_loop size qubits coupling_map density (resolve_rng rng)
          = Ok (ls, rng') /\
        qcs = map qc ls /\
        Forall (fun l =>
                  forall e, In e coupling_map ->
                    exists s, In s (selected_edges l) /\ share_vertex s e) ls).
Proof.
  split.
  - intros g.
    destruct (@grab_edges_matching _ integers_range coupling_map (length coupling_map)
                coupling_map [] g)
      as (sel & g' & Hgrab & _);
      [lia | apply incl_refl | intros e [] | constructor | intros s e [] |].
    exists sel, g'. split; [exact Hgrab|].
    intros e He. eapply grab_edges_maximal; [|exact Hgrab|exact He]. auto.
  - intros qcs Hn H.
    apply edgegrab_circuits_from_loop in H as (ls & rng' & Hls & ->); [|exact Hn].
    exists ls, rng'. split; [exact Hls|]. split; [reflexivity|].
    eapply edgegrab_loop_Forall; [|exact Hls].
    intros g g' l Hl e He.
    apply edgegrab_circuit_inv in Hl as (rng1 & _ & _ & Hgrab & _).
    eapply grab_edges_maximal; [|exact Hgrab|exact He]. auto.
Qed.

(** X11. When every edge of the coupling map joins two different qubits of
    [qubits], [random_edgegrab_clifford_circuits] raises nothing: it returns
    [size] circuits, each on as many qubits as [qubits] has. *)
Theorem edgegrab_returns (qubits : list Z) (coupling_map : list edge)
        (density : float) (size : nat) (rng : rng_arg) :
  length qubits <> 1%nat ->
  Forall (fun e => In (fst e) qubits /\ In (snd e) qubits /\ fst e <> snd e)
         coupling_map ->
  exists qcs,
    random_edgegrab_clifford_circuits qubits coupling_map density size rng = Ok qcs /\
    length qcs = size /\
    Forall (fun c => num_qubits c = length qubits) qcs.
Proof.
  intros Hn Hcm. unfold random_edgegrab_clifford_circuits.
  destruct (Z.eqb_spec (Z.of_nat (length qubits)) 1); [lia|].
  destruct (edgegrab_loop_total integers_range qubits density size Hcm (resolve_rng rng))
    as (ls & rng' & Hls).
  rewrite Hls. cbn [bind]. eexists. split; [reflexivity|].
  pose proof (edgegrab_loop_spec integers_range _ _ _ _ _ Hls) as (Hlen & Hall).
  split; [now rewrite length_map|].
  apply Forall_map. eapply Forall_impl; [|exact Hall].
  intros l (_ & _ & cnots & nums & _ & _ & -> & _). reflexivity.
Qed.

(** X12. When the coupling map is not empty and none of its edges has both
    endpoints in [qubits], the first turn raises [IndexError] (from indexing
    the empty result of [np.where]), whatever the random choices. *)
Theorem edgegrab_missing_qubit (qubits : list Z) (coupling_map : list edge)
        (density : float) (size : nat) (rng : rng_arg) :
  length qubits <> 1%nat ->
  size <> 0%nat ->
  coupling_map <> [] ->
  (forall e, In e coupling_map -> ~ (In (fst e) qubits /\ In (snd e) qubits)) ->
  random_edgegrab_clifford_circuits qubits coupling_map density size rng =
  Raise IndexError.
Proof.
  intros Hn Hsize Hne Hmiss. unfold random_edgegrab_clifford_circuits.
  destruct (Z.eqb_spec (Z.of_nat (length qubits)) 1); [lia|].
  destruct size as [|size]; [contradiction|].
  cbn [edgegrab_loop]. unfold edgegrab_circuit.
  destruct (@grab_edges_matching _ integers_range coupling_map (length coupling_map)
              coupling_map [] (resolve_rng rng))
    as (sel & rng1 & Hgrab & Hincl & _);
    [lia | apply incl_refl | intros e [] | constructor | intros s e [] |].
  rewrite Hgrab. cbn [bind].
  destruct (if Z.of_nat (length sel) =? 0
            then (PyInt 0, [no_connectivity_warning])
            else _) as [prob warned].
  rewrite (@map_result_raises _ _ (logical_edge qubits) IndexError sel).
  - reflexivity.
  - destruct coupling_map as [|e0 cm]; [contradiction|].
    destruct (@grab_edges_maximal (e0 :: cm) _ _ _ _ _ _
                (fun e He => or_introl He) Hgrab e0 (or_introl eq_refl))
      as (s & Hs & _).
    intros ->. contradiction.
  - intros e He. apply logical_edge_missing. apply Hmiss. auto.
Qed.

(** X13. With a coupling map that is not empty, every turn of the outer
    loop of a call that returns selects at least one edge, its
    [two_qubit_prob] is the float
    [num_qubits * two_qubit_gate_density / len(selected_edges)], the
    no-connectivity warning is not issued, and the density warning is
    issued exactly when that probability is above 1; the circuit of the
    turn is returned all the same. *)
Theorem edgegrab_density_warning (qubits : list Z) (coupling_map : list edge)
        (density : float) (size : nat) (rng : rng_arg)
        (qcs : list QuantumCircuit) :
  length qubits <> 1%nat ->
  coupling_map <> [] ->
  random_edgegrab_clifford_circuits qubits coupling_map density size rng = Ok qcs ->
  exists ls rng',
    edgegrab_loop size qubits coupling_map density (resolve_rng rng) = Ok (ls, rng') /\
    qcs = map qc ls /\
    Forall (fun l =>
              selected_edges l <> [] /\
              exists p,
                p = float_div
                      (float_mul (float_of_int (Z.of_nat (length qubits))) density)
                      (float_of_int (Z.of_nat (length (selected_edges l)))) /\
                two_qubit_prob l = PyFloat p /\
                warnings l = if float_ltb (float_of_int 1) p
                             then [density_warning] else []) ls.
Proof.
  intros Hn Hne H.
  apply edgegrab_circuits_from_loop in H as (ls & rng' & Hls & ->); [|exact Hn].
  exists ls, rng'. split; [exact Hls|]. split; [reflexivity|].
  eapply edgegrab_loop_Forall; [|exact Hls].
  intros g g' l Hl.
  apply edgegrab_circuit_inv in Hl as (rng1 & _ & _ & Hgrab & Hprob & _).
  assert (Hsel : selected_edges l <> []).
  { destruct coupling_map as [|e0 cm]; [contradiction|].
    destruct (@grab_edges_maximal (e0 :: cm) _ _ _ _ _ _
                (fun e He => or_introl He) Hgrab e0 (or_introl eq_refl))
      as (s & Hs & _).
    intros Heq. rewrite Heq in Hs. contradiction. }
  split; [exact Hsel|]. eexists. split; [reflexivity|].
  destruct (Z.eqb_spec (Z.of_nat (length (selected_edges l))) 0) as [Hz|_].
  - destruct (selected_edges l); [contradiction | simpl in Hz; lia].
  - cbn in Hprob. inversion Hprob as [[Hp Hw]]. split; reflexivity.
Qed.

(** X14. In every turn of the outer loop of a call that returns, each
    instruction of the circuit is on qubits of the register (a CNOT on two
    different ones); twice the number of CNOTs plus the number of qubits
    that the turn left in [put_1_qubit_clifford] is the number of qubits;
    and there are no more CNOTs than edges that the turn selected. *)
Theorem edgegrab_gate_counts (qubits : list Z) (coupling_map : list edge)
        (density : float) (size : nat) (rng : rng_arg)
        (qcs : list QuantumCircuit) :
  length qubits <> 1%nat ->
  random_edgegrab_clifford_circuits qubits coupling_map density size rng = Ok qcs ->
  exists ls rng',
    edgegrab_loop size qubits coupling_map density (resolve_rng rng) = Ok (ls, rng') /\
    qcs = map qc ls /\
    Forall (fun l =>
              Forall (fits_register (length qubits)) (data (qc l)) /\
              (2 * count_cx (data (qc l)) + length (put_1_qubit_clifford l)
               = length qubits)%nat /\
              (count_cx (data (qc l)) <= length (selected_edges l))%nat) ls.
Proof.
  intros Hn H.
  apply edgegrab_circuits_from_loop in H as (ls & rng' & Hls & ->); [|exact Hn].
  exists ls, rng'. split; [exact Hls|]. split; [reflexivity|].
  eapply edgegrab_loop_Forall; [|exact Hls].
  intros g g' l Hl.
  apply edgegrab_circuit_inv in Hl
    as (rng1 & cnots & nums & _ & _ & Hlogical & Hincl & Hdis & Hneq & Hput & Hqc & _).
  pose proof (logical_edges_range _ _ Hlogical) as Hrange.
  assert (Hends : Forall (fun e => In (fst e) (arange (length qubits)) /\
                                   In (snd e) (arange (length qubits)) /\
                                   fst e <> snd e) cnots).
  { rewrite Forall_forall in *. intros e He.
    destruct (Hrange e (Hincl e He)) as (H0 & H1).
    repeat split; [now apply arange_In | now apply arange_In | now apply Hneq]. }
  assert (Hsingles : Forall (fun q => 0 <= q < Z.of_nat (length qubits))
                            (put_1_qubit_clifford l)).
  { rewrite Hput. apply Forall_forall. intros q Hq.
    apply filter_In in Hq as [Hq _]. now apply arange_In. }
  destruct (@clifford_layers_fit _ _ nums Hsingles) as (Hfit & Hzero).
  rewrite Hqc. cbn [data].
  assert (Hcount : count_cx (map cnot_of cnots
                             ++ clifford_layers (put_1_qubit_clifford l) nums)
                   = length cnots).
  { unfold count_cx in *. rewrite filter_app, length_app, Hzero.
    fold (count_cx (map cnot_of cnots)). rewrite count_cx_cnots. lia. }
  rewrite Hcount. split; [|split].
  - apply Forall_app. split; [|exact Hfit].
    apply Forall_map. eapply Forall_impl; [|exact Hends].
    intros e (H0 & H1 & Hne). apply arange_In in H0, H1.
    now apply fits_cnot.
  - pose proof (touched_length (sorted_NoDup (arange_sorted (length qubits)))
                               Hdis Hends) as Htouched.
    pose proof (filter_length (fun v => existsb (touches v) cnots)
                              (arange (length qubits))) as Hsplit.
    cbv beta in Hsplit. rewrite <- Hput in Hsplit. unfold arange in Hsplit at 2.
    rewrite length_map, length_seq in Hsplit. lia.
  - rewrite <- (map_result_length _ _ Hlogical).
    apply NoDup_incl_length; [now apply vertex_disjoint_NoDup | exact Hincl].
Qed.

End EdgeGrabMore.

(** ** Examples for the samplers and the edge grab *)

Lemma counter_integers_size_in_range : integers_size_in_range.
Proof.
  intros high n g Hhigh. simpl. split.
  - now rewrite length_map, length_seq.
  - apply Forall_forall. intros i Hi.
    apply in_map_iff in Hi as (k & <- & _). apply Z.mod_pos_bound. exact Hhigh.
Defined.

Lemma random_clifford_circuits_draws_witness :
  exists qcs,
    random_clifford_circuits 0 3 (RngSeed 100) = Ok qcs /\
    length qcs = 3%nat /\
    Forall (fun qc => num_qubits qc = 2%nat) qcs.
Proof.
  destruct (@random_clifford_circuits_draws
              counter_numerics circuits_qiskit counter_integers_size_in_range
              0 3%nat (RngSeed 100))
    as (qcs & Hqcs & Hlen & _ & Htwo).
  exists qcs. split; [exact Hqcs|]. split; [exact Hlen|].
  destruct Htwo as (samples & Hall); [lia | lia |].
  clear Hqcs Hlen. induction Hall as [|i qc samples qcs (_ & _ & Hn) _ IH];
    constructor; assumption.
Defined.

Lemma random_cliffords_draws_witness :
  exists l,
    random_cliffords 2 3 (RngSeed 100) = Ok (ListOfCliffords l) /\
    length l = 3%nat.
Proof.
  destruct (@random_cliffords_draws
              counter_numerics circuits_qiskit counter_integers_size_in_range
              2 3%nat (RngSeed 100))
    as (samples & l & Hl & Hlen & _).
  - lia.
  - exists l. split; assumption.
Defined.

Lemma edgegrab_matching_maximal_witness :
  (exists selected_edges g',
      grab_edges 4 [(4, 8); (7, 5); (8, 5); (3, 7)] [] 5 = Ok (selected_edges, g') /\
      forall e, In e [(4, 8); (7, 5); (8, 5); (3, 7)] ->
        exists s, In s selected_edges /\ share_vertex s e) /\
  (exists qcs ls rng',
      random_edgegrab_clifford_circuits
        [8; 4; 5; 3; 7] [(4, 8); (7, 5); (8, 5); (3, 7)] 25 2 (RngSeed 5) = Ok qcs /\
      edgegrab_loop 2 [8; 4; 5; 3; 7] [(4, 8); (7, 5); (8, 5); (3, 7)] 25
                    (resolve_rng (RngSeed 5)) = Ok (ls, rng') /\
      qcs = map qc ls /\
      Forall (fun l =>
                forall e, In e [(4, 8); (7, 5); (8, 5); (3, 7)] ->
                  exists s, In s (selected_edges l) /\ share_vertex s e) ls).
Proof.
  destruct (@edgegrab_matching_maximal
              counter_numerics circuits_qiskit counter_integers_in_range
              [8; 4; 5; 3; 7] [(4, 8); (7, 5); (8, 5); (3, 7)] 25 2%nat (RngSeed 5))
    as (Hloop & Hcall).
  split; [exact (Hloop 5)|].
  eexists.
  assert (Hrun : random_edgegrab_clifford_circuits
                   [8; 4; 5; 3; 7] [(4, 8); (7, 5); (8, 5); (3, 7)] 25 2 (RngSeed 5)
                 = Ok _) by (vm_compute; reflexivity).
  destruct (Hcall _ ltac:(simpl; lia) Hrun) as (ls & rng' & Hls & Hmap & Hall).
  exists ls, rng'. split; [exact Hrun|]. split; [exact Hls|]. split; assumption.
Defined.

(** On the instance the loop selects the edges (7, 5) and (4, 8) out of
    four: each of the other two shares an endpoint with one of them. *)
Example grab_edges_run :
  grab_edges 4 [(4, 8); (7, 5); (8, 5); (3, 7)] [] 5 = Ok ([(7, 5); (4, 8)], 7).
Proof. vm_compute. reflexivity. Qed.

Lemma edgegrab_returns_witness :
  exists qcs,
    random_edgegrab_clifford_circuits
      [8; 4; 5; 3; 7] [(4, 8); (7, 5); (8, 5); (3, 7)] 25 2 (RngSeed 5) = Ok qcs /\
    length qcs = 2%nat /\
    Forall (fun c => num_qubits c = 5%nat) qcs.
Proof.
  assert (Hn : length [8; 4; 5; 3; 7] <> 1%nat) by (simpl; lia).
  assert (Hcm : Forall (fun e : edge =>
                          In (fst e) [8; 4; 5; 3; 7] /\
                          In (snd e) [8; 4; 5; 3; 7] /\ fst e <> snd e)
                       [(4, 8); (7, 5); (8, 5); (3, 7)]).
  { repeat (apply Forall_cons || apply Forall_nil); simpl; intuition lia. }
  exact (@edgegrab_returns
           counter_numerics circuits_qiskit counter_integers_in_range
           [8; 4; 5; 3; 7] [(4, 8); (7, 5); (8, 5); (3, 7)] 25 2%nat (RngSeed 5)
           Hn Hcm).
Defined.

Lemma edgegrab_missing_qubit_witness :
  random_edgegrab_clifford_circuits [0; 1] [(5, 6); (1, 7)] 25 1 (RngSeed 5) =
  Raise IndexError.
Proof.
  assert (Hn : length [0; 1] <> 1%nat) by (simpl; lia).
  assert (Hsize : 1%nat <> 0%nat) by lia.
  assert (Hne : [(5, 6); (1, 7)] <> @nil edge) by discriminate.
  assert (Hmiss : forall e : edge, In e [(5, 6); (1, 7)] ->
                    ~ (In (fst e) [0; 1] /\ In (snd e) [0; 1])).
  { intros e [<-|[<-|[]]]; simpl; intuition lia. }
  exact (@edgegrab_missing_qubit
           counter_numerics circuits_qiskit counter_integers_in_range
           [0; 1] [(5, 6); (1, 7)] 25 1%nat (RngSeed 5) Hn Hsize Hne Hmiss).
Defined.

Lemma edgegrab_density_warning_witness :
  exists qcs ls rng',
    random_edgegrab_clifford_circuits [0; 1] [(0, 1)] 75 1 (RngSeed 5) = Ok qcs /\
    edgegrab_loop 1 [0; 1] [(0, 1)] 75 (resolve_rng (RngSeed 5)) = Ok (ls, rng') /\
    qcs = map qc ls /\
    Forall (fun l => selected_edges l <> [] /\
                     exists p, two_qubit_prob l = PyFloat p /\
                               warnings l = if float_ltb (float_of_int 1) p
                                            then [density_warning] else []) ls.
Proof.
  eexists.
  assert (Hrun : random_edgegrab_clifford_circuits [0; 1] [(0, 1)] 75 1 (RngSeed 5)
                 = Ok _) by (vm_compute; reflexivity).
  destruct (@edgegrab_density_warning
              counter_numerics circuits_qiskit counter_integers_in_range
              [0; 1] [(0, 1)] 75 1%nat (RngSeed 5)
              _ ltac:(simpl; lia) ltac:(discriminate) Hrun)
    as (ls & rng' & Hls & Hmap & Hall).
  exists ls, rng'. split; [exact Hrun|]. split; [exact Hls|]. split; [exact Hmap|].
  eapply Forall_impl; [|exact Hall].
  intros l (Hsel & p & _ & Hp & Hw). split; [exact Hsel | exists p; split; assumption].
Defined.

(** On the instance, a density of 0.75 on two qubits with one edge gives the
    probability 1.5 and the density warning, and the circuit is returned. *)
Example edgegrab_density_above_one :
  edgegrab_loop 1 [0; 1] [(0, 1)] 75 5 =
  Ok ([mk_edgegrab_locals [(0, 1)] (PyFloat 150) [density_warning] [(0, 1)] []
                          (circuit 2 [cnot 0 1])], 7).
Proof. vm_compute. reflexivity. Qed.

Lemma edgegrab_gate_counts_witness :
  exists qcs ls rng',
    random_edgegrab_clifford_circuits
      [8; 4; 5; 3; 7] [(4, 8); (7, 5); (8, 5); (3, 7)] 25 2 (RngSeed 5) = Ok qcs /\
    edgegrab_loop 2 [8; 4; 5; 3; 7] [(4, 8); (7, 5); (8, 5); (3, 7)] 25
                  (resolve_rng (RngSeed 5)) = Ok (ls, rng') /\
    qcs = map qc ls /\
    Forall (fun l =>
              (2 * count_cx (data (qc l)) + length (put_1_qubit_clifford l)
               = 5)%nat /\
              (count_cx (data (qc l)) <= length (selected_edges l))%nat) ls.
Proof.
  eexists.
  assert (Hrun : random_edgegrab_clifford_circuits
                   [8; 4; 5; 3; 7] [(4, 8); (7, 5); (8, 5); (3, 7)] 25 2 (RngSeed 5)
                 = Ok _) by (vm_compute; reflexivity).
  destruct (@edgegrab_gate_counts
              counter_numerics circuits_qiskit counter_integers_in_range
              [8; 4; 5; 3; 7] [(4, 8); (7, 5); (8, 5); (3, 7)] 25 2%nat (RngSeed 5)
              _ ltac:(simpl; lia) Hrun)
    as (ls & rng' & Hls & Hmap & Hall).
  exists ls, rng'. split; [exact Hrun|]. split; [exact Hls|]. split; [exact Hmap|].
  eapply Forall_impl; [|exact Hall].
  intros l (_ & Hcount & Hle). split; assumption.
Defined.

(** ** The target string and the stabilizer half *)

Lemma join_bits_inj (l1 l2 : list bool) :
  String.concat EmptyString (map (fun phase : bool => if phase then "1" else "0") l1)%string
  = String.concat EmptyString (map (fun phase : bool => if phase then "1" else "0") l2)%string ->
  l1 = l2.
Proof.
  revert l2; induction l1 as [|b1 l1 IH]; intros [|b2 l2] H.
  - reflexivity.
  - rewrite join_bits_cons in H. discriminate.
  - rewrite join_bits_cons in H. discriminate.
  - rewrite !join_bits_cons in H. inversion H as [[Hb Hrest]].
    f_equal; [destruct b1, b2; simpl in Hb; congruence | now apply IH].
Qed.

Section TargetOfStabilizers.

Context {N : Numerics} {Q : Qiskit}.

(** X15. Two circuits on the same number [n] of qubits have the same target
    string exactly when their phase vectors agree from the entry [n] on:
    the string is blind to the first [n] entries (the destabilizer half) and
    loses nothing of the rest. *)
Theorem target_bitstring_reads_stabilizers (c1 c2 : QuantumCircuit) :
  num_qubits c1 = num_qubits c2 ->
  (compute_target_bitstring c1 = compute_target_bitstring c2 <->
   skipn (num_qubits c1) (table_phase (Clifford_of c1)) =
   skipn (num_qubits c1) (table_phase (Clifford_of c2))).
Proof.
  intros Hn. unfold compute_target_bitstring. rewrite <- Hn. split.
  - intros H. apply join_bits_inj in H.
    rewrite <- (rev_involutive (skipn _ (table_phase (Clifford_of c1)))).
    rewrite H. apply rev_involutive.
  - intros H. now rewrite H.
Qed.

End TargetOfStabilizers.

Lemma target_bitstring_reads_stabilizers_witness :
  compute_target_bitstring (circuit 1 [instr XGate [0]]) =
  compute_target_bitstring (circuit 1 [instr ZGate [0]; instr XGate [0]]).
Proof.
  apply (proj2 (@target_bitstring_reads_stabilizers
                  counter_numerics circuits_qiskit
                  (circuit 1 [instr XGate [0]])
                  (circuit 1 [instr ZGate [0]; instr XGate [0]])
                  eq_refl)).
  reflexivity.
Defined.

(** ** The qubits of parallel experiments *)

Lemma NoDup_snoc {A} (l : list A) (a : A) :
  NoDup l -> ~ In a l -> NoDup (l ++ [a]).
Proof.
  induction 1 as [|b l Hb Hl IH]; intros Ha; simpl.
  - constructor; [intros [] | constructor].
  - constructor.
    + intros Hin. apply in_app_or in Hin as [Hin|[Hin|[]]];
        [contradiction | subst; apply Ha; now left].
    + apply IH. intros Hin. apply Ha. now right.
Qed.

Section ParallelHelperFacts.

Variable BaseExperiment : Type.
Variable physical_qubits : BaseExperiment -> list Z.

Lemma has_key_In (qubit : Z) (mapping : list (Z * BaseExperiment)) :
  has_key qubit mapping = true <-> In qubit (map fst mapping).
Proof.
  unfold has_key. rewrite existsb_exists, in_map_iff. split.
  - intros (kv & Hkv & Heq). apply Z.eqb_eq in Heq. exists kv. split; auto.
  - intros (kv & Heq & Hkv). exists kv. split; [exact Hkv|].
    apply Z.eqb_eq. auto.
Qed.

(** The loop over the qubits of one experiment appends them to the
    dictionary when none of them is a key already or comes twice, and
    raises otherwise. *)
Lemma add_qubits_inv (exp : BaseExperiment) (qubits : list Z) :
  forall mapping,
    NoDup (map fst mapping) ->
    match add_qubits exp qubits mapping with
    | Returned m =>
        m = mapping ++ map (fun q => (q, exp)) qubits /\
        NoDup (map fst mapping ++ qubits)
    | QiskitError message =>
        message = duplications_message /\
        ~ NoDup (map fst mapping ++ qubits)
    end.
Proof.
  induction qubits as [|q qubits IH]; intros mapping Hkeys.
  - simpl. rewrite !app_nil_r. auto.
  - cbn [add_qubits]. destruct (has_key q mapping) eqn:Hq; cbn [negb].
    + split; [reflexivity|]. apply has_key_In in Hq. intros Hnd.
      apply NoDup_remove_2 in Hnd. apply Hnd. apply in_or_app. now left.
    + assert (Hnotin : ~ In q (map fst mapping)).
      { intros Hin. apply has_key_In in Hin. congruence. }
      specialize (IH (mapping ++ [(q, exp)])).
      rewrite map_app in IH. simpl in IH. rewrite <- !app_assoc in IH. simpl in IH.
      specialize (IH (@NoDup_snoc _ _ q Hkeys Hnotin)).
      destruct (add_qubits exp qubits (mapping ++ [(q, exp)])) as [m|msg].
      * exact IH.
      * exact IH.
Qed.

Lemma add_experiments_inv (exp_list : list BaseExperiment) :
  forall mapping,
    NoDup (map fst mapping) ->
    match add_experiments physical_qubits exp_list mapping with
    | Returned m =>
        m = mapping ++ qubits_with_experiments physical_qubits exp_list /\
        NoDup (map fst mapping ++ all_physical_qubits physical_qubits exp_list)
    | QiskitError message =>
        message = duplications_message /\
        ~ NoDup (map fst mapping ++ all_physical_qubits physical_qubits exp_list)
    end.
Proof.
  unfold qubits_with_experiments, all_physical_qubits.
  induction exp_list as [|exp exp_list IH]; intros mapping Hkeys.
  - simpl. rewrite !app_nil_r. auto.
  - cbn [add_experiments map concat].
    pose proof (add_qubits_inv exp (physical_qubits exp) mapping Hkeys) as Hexp.
    destruct (add_qubits exp (physical_qubits exp) mapping) as [m|msg].
    + destruct Hexp as (-> & Hnd).
      specialize (IH (mapping ++ map (fun q => (q, exp)) (physical_qubits exp))).
      rewrite map_app, map_map in IH. simpl in IH. rewrite map_id in IH.
      specialize (IH Hnd). rewrite <- !app_assoc in IH. exact IH.
    + destruct Hexp as (-> & Hnd). split; [reflexivity|].
      intros Hall. apply Hnd. rewrite app_assoc in Hall.
      eapply NoDup_app_remove_r. exact Hall.
Qed.

Lemma get_key_In (qubit : Z) (exp : BaseExperiment)
      (mapping : list (Z * BaseExperiment)) :
  NoDup (map fst mapping) -> In (qubit, exp) mapping ->
  get_key qubit mapping = Some exp.
Proof.
  induction mapping as [|[k v] mapping IH]; intros Hnd Hin; [contradiction|].
  simpl in *. inversion Hnd as [|? ? Hk Hrest]; subst.
  destruct Hin as [Heq|Hin].
  - inversion Heq; subst. now rewrite Z.eqb_refl.
  - destruct (Z.eqb_spec qubit k) as [->|Hneq]; [|now apply IH].
    exfalso. apply Hk. apply in_map_iff. exists (k, exp). auto.
Qed.

(** X16. [_create_qubit_exp_map] returns normally exactly when no physical
    qubit comes twice among the experiments (neither in two experiments nor
    twice in one); the dictionary then holds the qubits in the order of the
    experiments, and looking up any qubit of an experiment gives that
    experiment.  Otherwise it raises [QiskitError] with the message on
    duplications. *)
Theorem create_qubit_exp_map_spec (exp_list : list BaseExperiment) :
  (NoDup (all_physical_qubits physical_qubits exp_list) ->
   _create_qubit_exp_map physical_qubits exp_list =
     Returned (qubits_with_experiments physical_qubits exp_list) /\
   forall exp qubit,
     In exp exp_list -> In qubit (physical_qubits exp) ->
     get_key qubit (qubits_with_experiments physical_qubits exp_list) = Some exp) /\
  (~ NoDup (all_physical_qubits physical_qubits exp_list) ->
   _create_qubit_exp_map physical_qubits exp_list =
     QiskitError duplications_message).
Proof.
  pose proof (add_experiments_inv exp_list [] (NoDup_nil Z)) as Hinv.
  unfold _create_qubit_exp_map. simpl in Hinv.
  destruct (add_experiments physical_qubits exp_list []) as [m|msg].
  - destruct Hinv as (-> & Hnd). split; [|contradiction].
    intros _. split; [reflexivity|].
    intros exp qubit Hexp Hq. apply get_key_In.
    + unfold qubits_with_experiments, all_physical_qubits in *.
      rewrite concat_map, map_map.
      erewrite map_ext; [exact Hnd|].
      intros e. simpl. rewrite map_map. simpl. now rewrite map_id.
    + unfold qubits_with_experiments. apply in_concat.
      exists (map (fun q => (q, exp)) (physical_qubits exp)). split.
      * apply in_map_iff. exists exp. auto.
      * apply in_map_iff. exists qubit. auto.
  - destruct Hinv as (-> & Hnd). split; [contradiction|]. reflexivity.
Qed.

End ParallelHelperFacts.

(** Two experiments on the qubits (0, 1) and (2): the dictionary maps 0 and
    1 to the first and 2 to the second; with the qubit 1 in both, the
    function raises. *)
Example create_qubit_exp_map_run :
  _create_qubit_exp_map (fun exp : list Z => exp) [[0; 1]; [2]] =
    Returned [(0, [0; 1]); (1, [0; 1]); (2, [2])] /\
  _create_qubit_exp_map (fun exp : list Z => exp) [[0; 1]; [1; 2]] =
    QiskitError duplications_message.
Proof. split; reflexivity. Qed.
